(** * leap-event: the stores, the date formatter and the views, verified

    A shallow embedding of the TypeScript/Vue sources:
    - [src/stores/pinnedEvents.ts]  the pinned-set store,
    - [src/stores/events.ts]        the catalog store,
    - [utilities/useTime.ts]        [formatDate] and [formatCalendarDate],
    - [EventList.vue]               the sorted list view,
    - [EventModal.vue]              the detail modal and its scroll lock.

    JavaScript arrays are lists; where a claim depends on two names
    referring to one array (the catalog and the copy that is sorted) the
    arrays live in a heap of references. *)

From stdpp Require Import base list strings gmap pretty.
From Stdlib Require Import ZArith Ascii Sorting.Sorted.

Local Open Scope Z_scope.

(** ** Values and the [Event] type *)

(** The values an event's [time] field holds at run time.  The type
    declares a string; the data and the tests also supply [null] and
    [undefined]. *)
Inductive jsval : Type :=
  | JsNull
  | JsUndefined
  | JsString (s : string).

#[global] Instance jsval_eq_dec : EqDecision jsval.
Proof. solve_decision. Defined.

Record Event : Type := mkEvent {
  name : string;
  time : jsval;
  location : string;
  description : string;
  image : string;
  category : option string
}.

#[global] Instance Event_eq_dec : EqDecision Event.
Proof. solve_decision. Defined.

(** ** The array methods the sources call *)

Module JsArray.

(** [arr.some(p)] *)
Fixpoint some {A} (p : A → bool) (arr : list A) : bool :=
  match arr with
  | [] => false
  | x :: rest => if p x then true else some p rest
  end.

(** [arr.findIndex(p)], scanning from index [i]; [-1] when nothing matches *)
Fixpoint findIndex_from {A} (p : A → bool) (arr : list A) (i : Z) : Z :=
  match arr with
  | [] => -1
  | x :: rest => if p x then i else findIndex_from p rest (i + 1)
  end.

Definition findIndex {A} (p : A → bool) (arr : list A) : Z :=
  findIndex_from p arr 0.

(** [arr.filter(p)]: a new array *)
Fixpoint filter {A} (p : A → bool) (arr : list A) : list A :=
  match arr with
  | [] => []
  | x :: rest => if p x then x :: filter p rest else filter p rest
  end.

(** [arr.push(x)]: appends at the end *)
Definition push {A} (arr : list A) (x : A) : list A := arr ++ [x].

End JsArray.

(** ** The pinned-set store, [src/stores/pinnedEvents.ts] *)

Record PinnedState : Type := mkPinned { pinnedEvents : list Event }.

(** [state: () => ({ pinnedEvents: [] })] *)
Definition pinned_init : PinnedState := {| pinnedEvents := [] |}.

(** [(e) => e.name === x] *)
Definition name_is (x : string) (e : Event) : bool := String.eqb (name e) x.

Definition addPinnedEvent (event : Event) (st : PinnedState) : PinnedState :=
  let alreadyPinned := JsArray.some (name_is (name event)) (pinnedEvents st) in
  if negb alreadyPinned
  then {| pinnedEvents := JsArray.push (pinnedEvents st) event |}
  else st.

Definition removePinnedEvent (eventName : string) (st : PinnedState) : PinnedState :=
  {| pinnedEvents :=
       JsArray.filter (λ e, negb (name_is eventName e)) (pinnedEvents st) |}.

Definition togglePin (event : Event) (st : PinnedState) : PinnedState :=
  let index := JsArray.findIndex (name_is (name event)) (pinnedEvents st) in
  if -1 <? index
  then removePinnedEvent (name event) st
  else addPinnedEvent event st.

Definition isPinned (eventName : string) (st : PinnedState) : bool :=
  JsArray.some (name_is eventName) (pinnedEvents st).

(** A call of one of the three mutating actions. *)
Inductive pinned_call : Type :=
  | CallAdd (event : Event)
  | CallRemove (eventName : string)
  | CallToggle (event : Event).

Definition pinned_exec (st : PinnedState) (c : pinned_call) : PinnedState :=
  match c with
  | CallAdd e => addPinnedEvent e st
  | CallRemove n => removePinnedEvent n st
  | CallToggle e => togglePin e st
  end.

(** The calls of a list, first to last. *)
Definition pinned_run (st : PinnedState) (cs : list pinned_call) : PinnedState :=
  foldl pinned_exec st cs.

Definition toggle_all (st : PinnedState) (events : list Event) : PinnedState :=
  foldl (λ s e, togglePin e s) st events.

(** How often [n] is toggled in a sequence of [togglePin] calls. *)
Definition toggle_count (n : string) (events : list Event) : nat :=
  length (JsArray.filter (name_is n) events).

(** The entries the store holds under a name, in order. *)
Definition entries_named (n : string) (st : PinnedState) : list Event :=
  JsArray.filter (name_is n) (pinnedEvents st).

(** The names of the stored entries, in order. *)
Definition pinned_names (st : PinnedState) : list string :=
  map name (pinnedEvents st).

(** ** The host's date facilities

    [new Date(v)], [Date.prototype.getTime], [Intl.DateTimeFormat] and
    [Date.prototype.toLocaleString] belong to the JavaScript host.  A time
    value is a number of milliseconds since the epoch, or [NaN]: [option Z]
    with [None] for [NaN].  What the host's parser accepts, its time zone
    and its locale tables are the fields of [Host]. *)

Record Host : Type := mkHost {
  (** [Date.parse(s)] *)
  Date_parse : string → option Z;
  (** [new Intl.DateTimeFormat('en-US', options).format] at a finite time
      value, for the options of [formatDate] *)
  DateTimeFormat_en_US : Z → string;
  (** [toLocaleString('en-US', { month: 'short' })] at a finite time value *)
  month_short_en_US : Z → string;
  (** the day of the month of a finite time value, in local time *)
  local_day_of_month : Z → Z
}.

Inductive js_error : Type :=
  | RangeError.

(** How a call ends: with a value, or with a thrown error. *)
Inductive completion (A : Type) : Type :=
  | Return (value : A)
  | Throw (error : js_error).
Arguments Return {A} value.
Arguments Throw {A} error.

Module JsDate.

(** [new Date(v)]: a string is parsed, anything else goes through
    [ToNumber], which sends [null] to [0] and [undefined] to [NaN]. *)
Definition new (host : Host) (v : jsval) : option Z :=
  match v with
  | JsString s => Date_parse host s
  | JsNull => Some 0
  | JsUndefined => None
  end.

(** [date.getTime()] *)
Definition getTime (date : option Z) : option Z := date.

(** [date.getDate()]: [NaN] for an invalid date *)
Definition getDate (host : Host) (date : option Z) : option Z :=
  local_day_of_month host <$> date.

(** [date.toLocaleString('en-US', { month: 'short' })]: the literal
    ["Invalid Date"] for an invalid date *)
Definition toLocaleString_month (host : Host) (date : option Z) : string :=
  match date with
  | Some t => month_short_en_US host t
  | None => "Invalid Date"
  end.

(** [new Intl.DateTimeFormat('en-US', options).format(date)]: a
    [RangeError] when the time value is [NaN] *)
Definition DateTimeFormat_format (host : Host) (date : option Z)
  : completion string :=
  match date with
  | Some t => Return (DateTimeFormat_en_US host t)
  | None => Throw RangeError
  end.

End JsDate.

(** [Number.prototype.toString] on an integer or [NaN] *)
Definition Number_toString (x : option Z) : string :=
  match x with
  | Some z => pretty z
  | None => "NaN"
  end.

Definition ascii_toUpperCase (c : Ascii.ascii) : Ascii.ascii :=
  let n := Ascii.nat_of_ascii c in
  if (97 <=? n)%nat && (n <=? 122)%nat then Ascii.ascii_of_nat (n - 32) else c.

(** [s.toUpperCase()] on ASCII text *)
Fixpoint toUpperCase (s : string) : string :=
  match s with
  | EmptyString => EmptyString
  | String c rest => String (ascii_toUpperCase c) (toUpperCase rest)
  end.

(** ** The date formatter, [utilities/useTime.ts] *)

Record CalendarDate : Type := mkCalendarDate { month : string; day : string }.

Definition formatDate (host : Host) (dateString : jsval) : completion string :=
  let date := JsDate.new host dateString in
  JsDate.DateTimeFormat_format host date.

Definition formatCalendarDate (host : Host) (dateString : jsval)
  : completion CalendarDate :=
  let date := JsDate.new host dateString in
  let month := toUpperCase (JsDate.toLocaleString_month host date) in
  let day := Number_toString (JsDate.getDate host date) in
  Return {| month := month; day := day |}.

(** ** Arrays by reference *)

(** The heap maps an array reference to the array's elements. *)
Abbreviation heap := (gmap nat (list Event)).

Module JsHeap.

(** A new array holding [arr] *)
Definition alloc (h : heap) (arr : list Event) : nat * heap :=
  let r := fresh (dom h) in (r, <[r := arr]> h).

(** [[...a]]: a new array with the elements of [a] *)
Definition spread (h : heap) (a : nat) : option (nat * heap) :=
  arr ← h !! a; Some (alloc h arr).

(** [SortCompare]: a comparator result of [NaN] counts as [+0] *)
Definition SortCompare {A} (comparefn : A → A → option Z) (x y : A) : Z :=
  default 0 (comparefn x y).

Fixpoint sort_insert {A} (comparefn : A → A → option Z) (x : A)
    (sorted : list A) : list A :=
  match sorted with
  | [] => [x]
  | y :: rest =>
      if SortCompare comparefn x y <=? 0
      then x :: y :: rest
      else y :: sort_insert comparefn x rest
  end.

(** The order [Array.prototype.sort] produces.  The language fixes it
    for a consistent comparator (the stable sorted order), which a
    stable insertion sort computes.  A comparator that returns [NaN] for
    some pairs is not consistent and the order then depends on the
    engine.  An array in which no element compares greater than its right
    neighbour is left as it is by the engines' run detection and by this
    function alike; the catalog with one unparseable time between two
    parseable ones used below is such an array. *)
Fixpoint sorted_order {A} (comparefn : A → A → option Z) (arr : list A)
  : list A :=
  match arr with
  | [] => []
  | x :: rest => sort_insert comparefn x (sorted_order comparefn rest)
  end.

(** [a.sort(comparefn)]: sorts the array [a] in place and returns [a] *)
Definition sort (comparefn : Event → Event → option Z) (h : heap) (a : nat)
  : option (nat * heap) :=
  arr ← h !! a; Some (a, <[a := sorted_order comparefn arr]> h).

End JsHeap.

(** ** The catalog store, [src/stores/events.ts] *)

(** The state holds a reference to an array. *)
Record EventState : Type := mkEventState { events : nat }.

(** [state: () => ({ events: [] })]: a new empty array *)
Definition eventStore_init (h : heap) : EventState * heap :=
  let '(r, h') := JsHeap.alloc h [] in ({| events := r |}, h').

(** [this.events = eventsData], with [eventsData] the array imported from
    [@/data/events.json]; the assignment stores the reference. *)
Definition fetchEvents (eventsData : nat) (st : EventState) : EventState :=
  {| events := eventsData |}.

(** The sequence the store holds. *)
Definition held_events (h : heap) (st : EventState) : option (list Event) :=
  h !! events st.

(** ** The list view, [EventList.vue] *)

(** [(a, b) => new Date(a.time).getTime() - new Date(b.time).getTime()].
    The difference of two time values is taken in [Z]; the sort reads its
    sign alone, which floating-point subtraction gives exactly. *)
Definition by_time (host : Host) (a b : Event) : option Z :=
  x ← JsDate.getTime (JsDate.new host (time a));
  y ← JsDate.getTime (JsDate.new host (time b));
  Some (x - y).

(** [computed(() => [...eventStore.events].sort(...))] *)
Definition sortedEvents (host : Host) (st : EventState) (h : heap)
  : option (nat * heap) :=
  '(copy, h1) ← JsHeap.spread h (events st);
  JsHeap.sort (by_time host) h1 copy.

#[local] Set Warnings "-register-all".

(** What a template renders. *)
Inductive vnode : Type :=
  | VElement (tag class : string) (children : list vnode)
  | VText (text : string)
  | VEventCard (key : string) (event : Event).

(** The template:
    [<div class="event-list"> <h3>Events</h3>
       <EventCard v-for="event in sortedEvents" :key="event.name" :event="event" />
     </div>] *)
Definition EventList_template (sorted : list Event) : vnode :=
  VElement "div" "event-list"
    (VElement "h3" "" [VText "Events"]
     :: map (λ event, VEventCard (name event) event) sorted).

Definition EventList_render (host : Host) (st : EventState) (h : heap)
  : option (vnode * heap) :=
  '(sorted, h') ← sortedEvents host st h;
  arr ← h' !! sorted;
  Some (EventList_template arr, h').

Definition is_card (v : vnode) : bool :=
  match v with VEventCard _ _ => true | _ => false end.

Definition children_of (v : vnode) : list vnode :=
  match v with VElement _ _ cs => cs | _ => [] end.

(** The [EventCard] instances of a rendered list. *)
Definition cards_of (v : vnode) : list vnode :=
  JsArray.filter is_card (children_of v).

(** Everything else the container holds. *)
Definition non_cards_of (v : vnode) : list vnode :=
  JsArray.filter (λ c, negb (is_card c)) (children_of v).

(** Times in order: both parse and the first is not later. *)
Definition time_le (host : Host) (a b : Event) : Prop :=
  match JsDate.new host (time a), JsDate.new host (time b) with
  | Some x, Some y => x ≤ y
  | _, _ => False
  end.

Definition parseable (host : Host) (e : Event) : Prop :=
  is_Some (JsDate.new host (time e)).

(** ** The detail modal and the page's scroll lock, [EventModal.vue]

    A page holds any number of [EventModal] instances, one per card
    ([EventCard.vue] and [PinnedEventCard.vue] each render one and own its
    [isModalOpen] flag).  All of them write the one
    [document.body.style.overflow].  Each user or lifecycle event is
    handled to completion, watchers included, before the next. *)

Module Modal.

Record page : Type := mkPage {
  (** [document.body.style.overflow] *)
  body_overflow : string;
  (** the mounted instances, each with its [isOpen] prop *)
  instances : gmap nat bool;
  (** the instances whose [handleEscape] listens to [keydown] on
      [window], in the order they were added *)
  keydown_listeners : list nat
}.

Definition page_init : page :=
  {| body_overflow := ""; instances := ∅; keydown_listeners := [] |}.

Definition set_overflow (v : string) (pg : page) : page :=
  {| body_overflow := v;
     instances := instances pg;
     keydown_listeners := keydown_listeners pg |}.

Definition set_instances (m : gmap nat bool) (pg : page) : page :=
  {| body_overflow := body_overflow pg;
     instances := m;
     keydown_listeners := keydown_listeners pg |}.

Definition set_listeners (l : list nat) (pg : page) : page :=
  {| body_overflow := body_overflow pg;
     instances := instances pg;
     keydown_listeners := l |}.

(** The callback of [watch(() => props.isOpen, ...)] *)
Definition watch_isOpen (isOpen : bool) (pg : page) : page :=
  if isOpen then set_overflow "hidden" pg else set_overflow "" pg.

(** The owning card assigns its [isModalOpen]; the watcher runs when
    the prop's value changes. *)
Definition set_isOpen (i : nat) (b : bool) (pg : page) : page :=
  match instances pg !! i with
  | Some old =>
      if bool_decide (old = b) then pg
      else watch_isOpen b (set_instances (<[i := b]> (instances pg)) pg)
  | None => pg
  end.

(** The card's [openModal] *)
Definition openModal (i : nat) (pg : page) : page := set_isOpen i true pg.

(** [closeModal] emits [close]; the card's handler clears its flag. *)
Definition closeModal (i : nat) (pg : page) : page := set_isOpen i false pg.

Definition handleOverlayClick (i : nat) (pg : page) : page := closeModal i pg.

Definition handleEscape (key : string) (pg : page) (i : nat) : page :=
  if String.eqb key "Escape" && bool_decide (instances pg !! i = Some true)
  then closeModal i pg
  else pg.

(** Setup and [onMounted]; the watcher is not called for the initial
    value of the prop. *)
Definition mount (i : nat) (isOpen : bool) (pg : page) : page :=
  match instances pg !! i with
  | Some _ => pg
  | None =>
      set_listeners (keydown_listeners pg ++ [i])
        (set_instances (<[i := isOpen]> (instances pg)) pg)
  end.

(** [onUnmounted] *)
Definition unmount (i : nat) (pg : page) : page :=
  match instances pg !! i with
  | Some _ =>
      set_overflow ""
        (set_listeners
           (JsArray.filter (λ j, negb (Nat.eqb j i)) (keydown_listeners pg))
           (set_instances (delete i (instances pg)) pg))
  | None => pg
  end.

Inductive ui_event : Type :=
  | Mount (i : nat) (isOpen : bool)
  | CardClick (i : nat)
  | OverlayClick (i : nat)
  | CloseClick (i : nat)
  | ContentClick (i : nat)
  | KeyDown (key : string)
  | Unmount (i : nat).

(** The overlay and what it contains exist while [isOpen] holds
    ([v-if="isOpen"]); a click inside the container stops there
    ([@click.stop]). *)
Definition step (pg : page) (ev : ui_event) : page :=
  match ev with
  | Mount i isOpen => mount i isOpen pg
  | CardClick i => openModal i pg
  | OverlayClick i =>
      if bool_decide (instances pg !! i = Some true)
      then handleOverlayClick i pg else pg
  | CloseClick i =>
      if bool_decide (instances pg !! i = Some true)
      then closeModal i pg else pg
  | ContentClick i => pg
  | KeyDown key => foldl (handleEscape key) pg (keydown_listeners pg)
  | Unmount i => unmount i pg
  end.

Definition run (pg : page) (trace : list ui_event) : page :=
  foldl step pg trace.

Definition is_open (i : nat) (pg : page) : Prop :=
  instances pg !! i = Some true.

#[global] Instance is_open_dec i pg : Decision (is_open i pg).
Proof. unfold is_open. apply _. Defined.

Definition locked (pg : page) : Prop := body_overflow pg = "hidden".

(** A step that writes the lock off without being a step of instance
    [i]: a click that closes another instance that is open, or the
    teardown of another instance that is mounted. *)
Definition releases_under (i : nat) (pg : page) (ev : ui_event) : bool :=
  match ev with
  | OverlayClick j | CloseClick j =>
      negb (Nat.eqb j i) && bool_decide (is_open j pg)
  | Unmount j =>
      negb (Nat.eqb j i) && bool_decide (is_Some (instances pg !! j))
  | _ => false
  end.

(** Along the trace instance [i] stays open and no step releases the lock
    under it. *)
Fixpoint held_through (i : nat) (pg : page) (trace : list ui_event) : Prop :=
  match trace with
  | [] => True
  | ev :: rest =>
      releases_under i pg ev = false
      ∧ is_open i (step pg ev)
      ∧ held_through i (step pg ev) rest
  end.

(** A lock that is on is held by an open instance. *)
Definition lock_has_holder (pg : page) : Prop :=
  locked pg → ∃ i, is_open i pg.

(** The instances that listen for keys are the mounted ones. *)
Definition listeners_mounted (pg : page) : Prop :=
  ∀ i, i ∈ keydown_listeners pg ↔ is_Some (instances pg !! i).

End Modal.

(** ** A host for the examples: local time is UTC *)

Module UtcHost.

Definition digit (c : Ascii.ascii) : option Z :=
  let n := Z.of_nat (Ascii.nat_of_ascii c) - 48 in
  if (0 <=? n) && (n <=? 9) then Some n else None.

Fixpoint number (acc : Z) (cs : list Ascii.ascii) : option Z :=
  match cs with
  | [] => Some acc
  | c :: rest => d ← digit c; number (10 * acc + d) rest
  end.

(** Days from 1970-01-01 to the given day of the proleptic Gregorian
    calendar. *)
Definition days_from_civil (y m d : Z) : Z :=
  let y' := if m <=? 2 then y - 1 else y in
  let era := y' / 400 in
  let yoe := y' - era * 400 in
  let doy := (153 * (if 2 <? m then m - 3 else m + 9) + 2) / 5 + d - 1 in
  let doe := yoe * 365 + yoe / 4 - yoe / 100 + doy in
  era * 146097 + doe - 719468.

(** The time value of a date and a time of day.  A day up to 31 that lies
    past the end of its month counts on into the next month. *)
Definition make_time (y m d hh mm ss : Z) : option Z :=
  if (1 <=? m) && (m <=? 12) && (1 <=? d) && (d <=? 31)
     && (hh <=? 23) && (mm <=? 59) && (ss <=? 59)
  then Some ((((days_from_civil y m d * 24 + hh) * 60 + mm) * 60 + ss) * 1000)
  else None.

(** The forms [YYYY-MM-DD], [YYYY-MM-DDTHH:mm] and [YYYY-MM-DDTHH:mm:ss].
    This host takes no other string for a date; an engine may accept more
    by rules of its own. *)
Definition parse (s : string) : option Z :=
  match String.list_ascii_of_string s with
  | [y1; y2; y3; y4; "-"; m1; m2; "-"; d1; d2]%char =>
      y ← number 0 [y1; y2; y3; y4];
      m ← number 0 [m1; m2];
      d ← number 0 [d1; d2];
      make_time y m d 0 0 0
  | [y1; y2; y3; y4; "-"; m1; m2; "-"; d1; d2; "T"; h1; h2; ":"; n1; n2]%char =>
      y ← number 0 [y1; y2; y3; y4];
      m ← number 0 [m1; m2];
      d ← number 0 [d1; d2];
      hh ← number 0 [h1; h2];
      mm ← number 0 [n1; n2];
      make_time y m d hh mm 0
  | [y1; y2; y3; y4; "-"; m1; m2; "-"; d1; d2; "T";
     h1; h2; ":"; n1; n2; ":"; s1; s2]%char =>
      y ← number 0 [y1; y2; y3; y4];
      m ← number 0 [m1; m2];
      d ← number 0 [d1; d2];
      hh ← number 0 [h1; h2];
      mm ← number 0 [n1; n2];
      ss ← number 0 [s1; s2];
      make_time y m d hh mm ss
  | _ => None
  end.

(** Year, month and day of a day number. *)
Definition civil_from_days (z : Z) : Z * Z * Z :=
  let z := z + 719468 in
  let era := z / 146097 in
  let doe := z - era * 146097 in
  let yoe := (doe - doe / 1460 + doe / 36524 - doe / 146096) / 365 in
  let doy := doe - (365 * yoe + yoe / 4 - yoe / 100) in
  let mp := (5 * doy + 2) / 153 in
  let d := doy - (153 * mp + 2) / 5 + 1 in
  let m := if mp <? 10 then mp + 3 else mp - 9 in
  ((if m <=? 2 then yoe + era * 400 + 1 else yoe + era * 400), m, d).

Definition month_name (m : Z) : string :=
  nth (Z.to_nat (m - 1))
    ["Jan"; "Feb"; "Mar"; "Apr"; "May"; "Jun";
     "Jul"; "Aug"; "Sep"; "Oct"; "Nov"; "Dec"] "".

Definition weekday_name (days : Z) : string :=
  nth (Z.to_nat ((days + 4) mod 7))
    ["Sunday"; "Monday"; "Tuesday"; "Wednesday"; "Thursday"; "Friday";
     "Saturday"] "".

Definition two_digits (n : Z) : string :=
  if n <? 10 then "0" +:+ pretty n else pretty n.

Definition month_short (t : Z) : string :=
  let '(_, m, _) := civil_from_days (t / 86400000) in month_name m.

Definition day_of_month (t : Z) : Z :=
  let '(_, _, d) := civil_from_days (t / 86400000) in d.

(** Weekday, short month, day and year, then hour and minute on a 12-hour
    clock, parts separated by commas. *)
Definition format (t : Z) : string :=
  let days := t / 86400000 in
  let '(y, m, d) := civil_from_days days in
  let minutes := (t mod 86400000) / 60000 in
  let h := minutes / 60 in
  let h12 := if h mod 12 =? 0 then 12 else h mod 12 in
  weekday_name days +:+ ", " +:+ month_name m +:+ " " +:+ pretty d +:+ ", "
  +:+ pretty y +:+ ", " +:+ pretty h12 +:+ ":" +:+ two_digits (minutes mod 60)
  +:+ (if h <? 12 then " AM" else " PM").

Definition host : Host :=
  {| Date_parse := parse;
     DateTimeFormat_en_US := format;
     month_short_en_US := month_short;
     local_day_of_month := day_of_month |}.

End UtcHost.

(** ** What the templates of the other views render *)

(** Sequencing of calls that may throw. *)
Definition and_then {A B} (c : completion A) (k : A → completion B)
  : completion B :=
  match c with
  | Return a => k a
  | Throw e => Throw e
  end.

Inductive vtree : Type :=
  | TElement (tag : string) (attrs : list (string * string))
      (children : list vtree)
  | TText (text : string)
  | TPinnedEventCard (key : string) (event : Event)
  | TEventCalendarIcon (date : jsval)
  | TEventModal (event : Event) (isOpen : bool).

(** [PinnedEvents.vue]:
    [<div v-if="pinnedStore.pinnedEvents.length > 0" class="pinned-container">
       <h3>Pinned Events</h3>
       <div class="pinned-grid">
         <PinnedEventCard v-for="event in pinnedStore.pinnedEvents"
                          :key="event.name" :event="event" />
       </div>
     </div>]; [None] when the [v-if] fails and nothing is rendered. *)
Definition PinnedEvents_template (st : PinnedState) : option vtree :=
  if 0 <? Z.of_nat (length (pinnedEvents st))
  then Some
         (TElement "div" [("class", "pinned-container")]
            [TElement "h3" [] [TText "Pinned Events"];
             TElement "div" [("class", "pinned-grid")]
               (map (λ event, TPinnedEventCard (name event) event)
                  (pinnedEvents st))])
  else None.

(** The keys and events of the [PinnedEventCard]s of a tree, in document
    order. *)
Fixpoint pinned_cards_in (t : vtree) : list (string * Event) :=
  match t with
  | TElement _ _ children =>
      (fix go (ts : list vtree) : list (string * Event) :=
         match ts with
         | [] => []
         | c :: rest => pinned_cards_in c ++ go rest
         end) children
  | TPinnedEventCard key event => [(key, event)]
  | _ => []
  end.

Definition strip_cards (st : PinnedState) : list (string * Event) :=
  match PinnedEvents_template st with
  | Some t => pinned_cards_in t
  | None => []
  end.

(** The pin button of [EventModal.vue] and [PinnedEventCard.vue]:
    [:aria-label="isPinned ? 'Unpin event' : 'Pin event'"] and, in the
    modal, [{{ isPinned ? 'Unpin' : 'Pin' }}], with
    [isPinned = computed(() => pinnedStore.isPinned(props.event.name))]. *)
Definition pin_aria_label (event : Event) (st : PinnedState) : string :=
  if isPinned (name event) st then "Unpin event" else "Pin event".

Definition pin_text (event : Event) (st : PinnedState) : string :=
  if isPinned (name event) st then "Unpin" else "Pin".

(** [EventCalendarIcon.vue]; the template calls [formatCalendarDate(date)]
    once for the month and once for the day. *)
Definition EventCalendarIcon_template (host : Host) (date : jsval)
  : completion vtree :=
  and_then (formatCalendarDate host date) (λ for_month,
  and_then (formatCalendarDate host date) (λ for_day,
  Return
    (TElement "div" [("class", "event-calendar")]
       [TElement "span" [("class", "calendar-banner")] [];
        TElement "div" [("class", "calendar-time")]
          [TElement "span" [("class", "calendar-month")]
             [TText (month for_month)];
           TElement "span" [("class", "calendar-date")]
             [TText (day for_day)]]]))).

(** [EventCard.vue]: the card and, beside it, the card's modal.  An error
    thrown while an expression of the template is evaluated ends the
    rendering. *)
Definition EventCard_template (host : Host) (event : Event)
    (isModalOpen : bool) : completion (list vtree) :=
  and_then (formatDate host (time event)) (λ formatted,
  Return
    [TElement "div" [("class", "event-card")]
       [TElement "img"
          [("src", image event); ("alt", name event); ("class", "event-image")]
          [];
        TElement "div" [("class", "event-details")]
          [TElement "h4" [] [TText (name event)];
           TElement "p" [("class", "event-time")] [TText formatted];
           TElement "p" [("class", "event-location")]
             [TText (location event)]];
        TEventCalendarIcon (time event)];
     TEventModal event isModalOpen]).

(** ** Reference notions for the properties below *)

(** The names a sequence of [togglePin] calls on the empty store leaves
    pinned: those called an odd number of times, in the order of their
    last calls. *)
Definition names_left_pinned (events : list Event) : list string :=
  JsArray.filter (λ n, Nat.odd (toggle_count n events))
    (remove_dups (map name events)).

(** The events of a list whose time is the time value [t]. *)
Definition at_time (host : Host) (t : Z) (arr : list Event) : list Event :=
  JsArray.filter (λ e, bool_decide (JsDate.new host (time e) = Some t)) arr.

#[global] Instance parseable_dec host e : Decision (parseable host e).
Proof. unfold parseable. apply _. Defined.

(** The events of a list whose time parses, in order. *)
Definition with_parseable_time (host : Host) (l : list Event) : list Event :=
  JsArray.filter (λ e, bool_decide (parseable host e)) l.

(** The events of the cards of a rendered list, in order. *)
Definition card_events (v : vnode) : list Event :=
  omap (λ c, match c with VEventCard _ event => Some event | _ => None end)
    (children_of v).

(** The keys of the cards of a rendered list, in order. *)
Definition card_keys (v : vnode) : list string :=
  omap (λ c, match c with VEventCard key _ => Some key | _ => None end)
    (children_of v).

Definition is_lower (c : Ascii.ascii) : bool :=
  let n := Ascii.nat_of_ascii c in (97 <=? n)%nat && (n <=? 122)%nat.

(** A page reached from the initial one. *)
Definition page_reachable (pg : Modal.page) : Prop :=
  ∃ trace, pg = Modal.run Modal.page_init trace.

(** ** Sample events, as in the component tests *)

Definition mockEvent1 : Event :=
  mkEvent "Early Event" (JsString "2025-01-15T10:00:00") "Location A"
          "First event" "https://example.com/event1.jpg" (Some "workshop").

Definition mockEvent2 : Event :=
  mkEvent "Middle Event" (JsString "2025-03-20T14:00:00") "Location B"
          "Second event" "https://example.com/event2.jpg" (Some "conference").

Definition mockEvent3 : Event :=
  mkEvent "Late Event" (JsString "2025-06-30T18:00:00") "Location C"
          "Third event" "https://example.com/event3.jpg" (Some "meetup").

(** The event with an unparseable time of the list view's tests. *)
Definition invalidEvent : Event :=
  mkEvent "Invalid Event" (JsString "invalid-date") "Location" "Description"
          "image.jpg" (Some "general").

(** [mockEvent1]'s name with a different payload. *)
Definition mockEvent1_moved : Event :=
  mkEvent "Early Event" (JsString "2025-02-01T09:00:00") "Location Z"
          "Rescheduled" "https://example.com/event1b.jpg" None.

(** * Theorems *)

(** ** Array methods *)

Section array_lemmas.
Context {A : Type}.
Implicit Types (p : A → bool) (arr : list A).

Lemma some_push p arr x :
  JsArray.some p (JsArray.push arr x) = JsArray.some p arr || p x.
Proof.
  unfold JsArray.push. induction arr as [|y arr IH]; simpl.
  - by destruct (p x).
  - destruct (p y); [done | apply IH].
Qed.

Lemma findIndex_from_found p arr i :
  0 ≤ i → (-1 <? JsArray.findIndex_from p arr i) = JsArray.some p arr.
Proof.
  revert i. induction arr as [|y arr IH]; intros i Hi; simpl; [done |].
  destruct (p y).
  - apply Z.ltb_lt. lia.
  - apply IH. lia.
Qed.

Lemma findIndex_found p arr :
  (-1 <? JsArray.findIndex p arr) = JsArray.some p arr.
Proof. by apply findIndex_from_found. Qed.

Lemma filter_sublist p arr : JsArray.filter p arr `sublist_of` arr.
Proof.
  induction arr as [|y arr IH]; simpl; [constructor |].
  destruct (p y); by constructor.
Qed.

Lemma filter_all p arr :
  JsArray.some (λ x, negb (p x)) arr = false → JsArray.filter p arr = arr.
Proof.
  induction arr as [|y arr IH]; simpl; [done |].
  destruct (p y); simpl; [|done]. intros H. by rewrite IH.
Qed.

Lemma filter_filter p q arr :
  JsArray.filter p (JsArray.filter q arr)
  = JsArray.filter (λ x, q x && p x) arr.
Proof.
  induction arr as [|y arr IH]; simpl; [done |].
  destruct (q y); simpl; [|done]. destruct (p y); by rewrite IH.
Qed.

Lemma filter_ext p q arr :
  (∀ x, p x = q x) → JsArray.filter p arr = JsArray.filter q arr.
Proof.
  intros E. induction arr as [|y arr IH]; simpl; [done |].
  by rewrite E, IH.
Qed.

Lemma filter_push p arr x :
  JsArray.filter p (JsArray.push arr x)
  = JsArray.filter p arr ++ (if p x then [x] else []).
Proof.
  unfold JsArray.push. induction arr as [|y arr IH]; simpl.
  - by destruct (p x).
  - destruct (p y); simpl; by rewrite IH.
Qed.

Lemma filter_none p arr :
  JsArray.some p arr = false → JsArray.filter p arr = [].
Proof.
  induction arr as [|y arr IH]; simpl; [done |]. by destruct (p y).
Qed.

Lemma filter_Forall p arr : Forall (λ x, p x = true) (JsArray.filter p arr).
Proof.
  induction arr as [|y arr IH]; simpl; [constructor |].
  destruct (p y) eqn:E; [by constructor | done].
Qed.

Lemma filter_Forall_keep (P : A → Prop) p arr :
  Forall P arr → Forall P (JsArray.filter p arr).
Proof.
  induction 1 as [|y arr Hy _ IH]; simpl; [constructor |].
  destruct (p y); [by constructor | done].
Qed.

Lemma elem_of_filter p arr x :
  x ∈ JsArray.filter p arr ↔ x ∈ arr ∧ p x = true.
Proof.
  induction arr as [|y arr IH]; simpl.
  - split; [by intros ?%elem_of_nil | by intros [?%elem_of_nil _]].
  - destruct (p y) eqn:E; rewrite ?elem_of_cons, IH.
    + split.
      * intros [->|[? ?]]; (split; [|done]); [by left | by right].
      * intros [[->|?] ?]; [by left | by right].
    + split.
      * intros [? ?]. split; [by right | done].
      * intros [[->|?] ?]; [congruence | done].
Qed.

Lemma filter_length_split p arr :
  (length (JsArray.filter (λ x, negb (p x)) arr)
   + length (JsArray.filter p arr) = length arr)%nat.
Proof.
  induction arr as [|y arr IH]; simpl; [done |].
  destruct (p y); simpl; lia.
Qed.

Lemma some_filter p q arr :
  JsArray.some p (JsArray.filter q arr)
  = JsArray.some (λ x, q x && p x) arr.
Proof.
  induction arr as [|y arr IH]; simpl; [done |].
  destruct (q y); simpl; [|done]. by destruct (p y).
Qed.

Lemma some_ext p q arr :
  (∀ x, p x = q x) → JsArray.some p arr = JsArray.some q arr.
Proof.
  intros E. induction arr as [|y arr IH]; simpl; [done |].
  by rewrite E, IH.
Qed.

Lemma some_never arr : JsArray.some (λ _ : A, false) arr = false.
Proof. by induction arr. Qed.
End array_lemmas.

(** ** The pinned-set store *)

Lemma name_is_decide n e : name_is n e = bool_decide (name e = n).
Proof.
  unfold name_is. destruct (String.eqb_spec (name e) n).
  - by rewrite bool_decide_eq_true_2.
  - by rewrite bool_decide_eq_false_2.
Qed.

Lemma name_is_same e : name_is (name e) e = true.
Proof. apply String.eqb_refl. Qed.

Lemma some_name_is_elem n (l : list Event) :
  JsArray.some (name_is n) l = bool_decide (n ∈ map name l).
Proof.
  induction l as [|e l IH]; cbn [JsArray.some map].
  - symmetry. apply bool_decide_eq_false_2. apply not_elem_of_nil.
  - rewrite name_is_decide, IH. destruct (decide (name e = n)) as [E|E].
    + rewrite (bool_decide_eq_true_2 _ E). symmetry.
      apply bool_decide_eq_true_2. subst. left.
    + rewrite (bool_decide_eq_false_2 _ E).
      apply bool_decide_ext. rewrite elem_of_cons.
      split; [tauto | intros [Hn|Hn]; [congruence | done]].
Qed.

Lemma isPinned_elem n st : isPinned n st = bool_decide (n ∈ pinned_names st).
Proof. apply some_name_is_elem. Qed.

Lemma isPinned_add n e st :
  isPinned n (addPinnedEvent e st) = isPinned n st || name_is n e.
Proof.
  unfold addPinnedEvent, isPinned.
  destruct (JsArray.some (name_is (name e)) (pinnedEvents st)) eqn:E; simpl.
  - rewrite name_is_decide. case_bool_decide as En; [|by rewrite orb_false_r].
    subst. by rewrite E.
  - apply some_push.
Qed.

Lemma isPinned_remove n m st :
  isPinned n (removePinnedEvent m st)
  = if bool_decide (n = m) then false else isPinned n st.
Proof.
  unfold removePinnedEvent, isPinned. simpl. rewrite some_filter.
  case_bool_decide as E.
  - subst. rewrite <- (some_never (pinnedEvents st)). apply some_ext.
    intros x. by destruct (name_is m x).
  - apply some_ext. intros x. rewrite !name_is_decide.
    repeat case_bool_decide; simpl; congruence.
Qed.

Lemma isPinned_toggle n e st :
  isPinned n (togglePin e st)
  = if bool_decide (name e = n) then negb (isPinned n st) else isPinned n st.
Proof.
  unfold togglePin. rewrite findIndex_found.
  destruct (JsArray.some (name_is (name e)) (pinnedEvents st)) eqn:E.
  - rewrite isPinned_remove. repeat case_bool_decide; subst; try congruence.
    unfold isPinned. by rewrite E.
  - rewrite isPinned_add, name_is_decide. case_bool_decide; subst.
    + unfold isPinned. by rewrite E.
    + by rewrite orb_false_r.
Qed.

Lemma toggle_count_cons n e events :
  toggle_count n (e :: events)
  = ((if bool_decide (name e = n) then 1 else 0) + toggle_count n events)%nat.
Proof.
  unfold toggle_count. simpl. rewrite name_is_decide. by case_bool_decide.
Qed.

Lemma isPinned_toggle_all n events st :
  isPinned n (toggle_all st events)
  = xorb (isPinned n st) (Nat.odd (toggle_count n events)).
Proof.
  revert st. induction events as [|e events IH]; intros st.
  - simpl. by rewrite xorb_false_r.
  - unfold toggle_all in *. simpl. rewrite IH, isPinned_toggle, toggle_count_cons.
    case_bool_decide; [|done].
    rewrite Nat.odd_add. simpl (Nat.odd 1).
    destruct (isPinned n st), (Nat.odd (toggle_count n events)); done.
Qed.

(** C1. After any sequence of [togglePin] calls on the empty store, a name
    is pinned exactly when it was toggled an odd number of times: both
    [isPinned] and membership among the stored names equal the parity of
    the number of calls on that name. *)
Theorem togglePin_parity (events : list Event) (n : string) :
  isPinned n (toggle_all pinned_init events) = Nat.odd (toggle_count n events)
  ∧ bool_decide (n ∈ pinned_names (toggle_all pinned_init events))
    = Nat.odd (toggle_count n events).
Proof.
  rewrite <- isPinned_elem, isPinned_toggle_all.
  split; apply xorb_false_l.
Qed.

Lemma addPinnedEvent_NoDup e st :
  NoDup (pinned_names st) → NoDup (pinned_names (addPinnedEvent e st)).
Proof.
  intros Hnd. unfold addPinnedEvent.
  destruct (JsArray.some (name_is (name e)) (pinnedEvents st)) eqn:E; [done |].
  rewrite some_name_is_elem in E. apply bool_decide_eq_false in E.
  unfold pinned_names, JsArray.push. simpl. rewrite map_app. simpl.
  apply NoDup_app. split_and!; [done | | apply NoDup_singleton].
  intros x Hx ->%list_elem_of_singleton. by apply E.
Qed.

Lemma removePinnedEvent_NoDup n st :
  NoDup (pinned_names st) → NoDup (pinned_names (removePinnedEvent n st)).
Proof.
  intros Hnd. eapply sublist_NoDup; [exact Hnd |].
  unfold pinned_names. simpl. apply (fmap_sublist name), filter_sublist.
Qed.

Lemma togglePin_NoDup e st :
  NoDup (pinned_names st) → NoDup (pinned_names (togglePin e st)).
Proof.
  intros Hnd. unfold togglePin.
  destruct (-1 <? _); auto using addPinnedEvent_NoDup, removePinnedEvent_NoDup.
Qed.

Lemma pinned_exec_NoDup st c :
  NoDup (pinned_names st) → NoDup (pinned_names (pinned_exec st c)).
Proof.
  destruct c; simpl;
    auto using addPinnedEvent_NoDup, removePinnedEvent_NoDup, togglePin_NoDup.
Qed.

Lemma pinned_run_NoDup cs st :
  NoDup (pinned_names st) → NoDup (pinned_names (pinned_run st cs)).
Proof.
  revert st. induction cs as [|c cs IH]; intros st Hnd; [done |].
  apply IH, pinned_exec_NoDup, Hnd.
Qed.

(** C2. At most one entry per name: each of [addPinnedEvent],
    [removePinnedEvent] and [togglePin] keeps the stored names free of
    duplicates, and so every state reached from the empty store by any
    sequence of the three has duplicate-free names. *)
Theorem pinned_names_unique :
  (∀ st e, NoDup (pinned_names st) → NoDup (pinned_names (addPinnedEvent e st)))
  ∧ (∀ st n, NoDup (pinned_names st) → NoDup (pinned_names (removePinnedEvent n st)))
  ∧ (∀ st e, NoDup (pinned_names st) → NoDup (pinned_names (togglePin e st)))
  ∧ (∀ cs, NoDup (pinned_names (pinned_run pinned_init cs))).
Proof.
  split_and!; auto using addPinnedEvent_NoDup, removePinnedEvent_NoDup,
    togglePin_NoDup.
  intros cs. apply pinned_run_NoDup. constructor.
Qed.

Lemma pinned_names_unique_witness :
  NoDup (pinned_names (addPinnedEvent mockEvent2 (mkPinned [mockEvent1])))
  ∧ NoDup (pinned_names (removePinnedEvent "Early Event" (mkPinned [mockEvent1])))
  ∧ NoDup (pinned_names (togglePin mockEvent1 (mkPinned [mockEvent1]))).
Proof.
  assert (NoDup (pinned_names (mkPinned [mockEvent1]))) as H0
    by (apply NoDup_singleton).
  destruct pinned_names_unique as (Hadd & Hrem & Htog & _).
  split_and!; [apply Hadd | apply Hrem | apply Htog]; exact H0.
Defined.

Lemma removePinnedEvent_absent n st :
  isPinned n st = false → removePinnedEvent n st = st.
Proof.
  intros H. destruct st as [l]. unfold removePinnedEvent, isPinned in *.
  simpl in *. f_equal. apply filter_all.
  rewrite <- H. apply some_ext. intros x. by destruct (name_is n x).
Qed.

(** C6. After [addPinnedEvent e] the name of [e] is pinned; after a
    following [removePinnedEvent] of that name it is not; and
    [removePinnedEvent] of a name that is absent returns the store as it
    was, in particular a second removal changes nothing.  The three
    actions are total functions: there is no failing case. *)
Theorem add_remove_isPinned (st : PinnedState) (e : Event) :
  isPinned (name e) (addPinnedEvent e st) = true
  ∧ isPinned (name e) (removePinnedEvent (name e) (addPinnedEvent e st)) = false
  ∧ removePinnedEvent (name e)
      (removePinnedEvent (name e) (addPinnedEvent e st))
    = removePinnedEvent (name e) (addPinnedEvent e st)
  ∧ (∀ n, isPinned n st = false → removePinnedEvent n st = st).
Proof.
  assert (isPinned (name e) (removePinnedEvent (name e) (addPinnedEvent e st))
          = false) as Hgone.
  { rewrite isPinned_remove. by rewrite bool_decide_eq_true_2. }
  split_and!.
  - by rewrite isPinned_add, name_is_same, orb_true_r.
  - exact Hgone.
  - by apply removePinnedEvent_absent.
  - intros n. apply removePinnedEvent_absent.
Qed.

Lemma add_remove_isPinned_witness :
  removePinnedEvent "Late Event" (mkPinned [mockEvent1; mockEvent2])
  = mkPinned [mockEvent1; mockEvent2].
Proof.
  apply (add_remove_isPinned (mkPinned [mockEvent1; mockEvent2]) mockEvent1).
  reflexivity.
Defined.

Lemma entries_named_absent n st :
  isPinned n st = false → entries_named n st = [].
Proof. apply filter_none. Qed.

Lemma entries_named_add n e st :
  isPinned (name e) st = false →
  entries_named n (addPinnedEvent e st)
  = entries_named n st ++ (if name_is n e then [e] else []).
Proof.
  intros H. unfold addPinnedEvent, entries_named. unfold isPinned in H.
  rewrite H. simpl. apply filter_push.
Qed.

Lemma entries_named_remove n m st :
  entries_named n (removePinnedEvent m st)
  = if bool_decide (n = m) then [] else entries_named n st.
Proof.
  case_bool_decide as E.
  - apply entries_named_absent. subst. rewrite isPinned_remove.
    by rewrite bool_decide_eq_true_2.
  - unfold entries_named, removePinnedEvent. simpl. rewrite filter_filter.
    apply filter_ext. intros x. rewrite !name_is_decide.
    repeat case_bool_decide; simpl; congruence.
Qed.

Lemma entries_named_toggle_other n e st :
  name e ≠ n → entries_named n (togglePin e st) = entries_named n st.
Proof.
  intros Hne. unfold togglePin. rewrite findIndex_found.
  destruct (JsArray.some _ _) eqn:E.
  - rewrite entries_named_remove. by rewrite bool_decide_eq_false_2.
  - rewrite entries_named_add by exact E.
    rewrite name_is_decide, bool_decide_eq_false_2 by done.
    apply app_nil_r.
Qed.

Lemma entries_named_toggle_in e st :
  isPinned (name e) st = false → entries_named (name e) (togglePin e st) = [e].
Proof.
  intros H. unfold togglePin. rewrite findIndex_found.
  pose proof H as H'. unfold isPinned in H'. rewrite H'.
  rewrite entries_named_add by exact H.
  by rewrite entries_named_absent, name_is_same.
Qed.

Lemma entries_named_toggle_out e st :
  isPinned (name e) st = true → entries_named (name e) (togglePin e st) = [].
Proof.
  intros H. unfold togglePin. rewrite findIndex_found.
  unfold isPinned in H. rewrite H, entries_named_remove.
  by rewrite bool_decide_eq_true_2.
Qed.

Lemma entries_named_toggle_all_other n events st :
  Forall (λ e, name e ≠ n) events →
  entries_named n (toggle_all st events) = entries_named n st.
Proof.
  intros Hall. revert st. induction Hall as [|e events He _ IH]; intros st.
  - done.
  - unfold toggle_all in *. simpl. by rewrite IH, entries_named_toggle_other.
Qed.

Lemma isPinned_entries n st :
  isPinned n st = negb (bool_decide (entries_named n st = [])).
Proof.
  unfold isPinned, entries_named.
  induction (pinnedEvents st) as [|e l IH]; simpl; [done |].
  destruct (name_is n e); [done | exact IH].
Qed.

(** C8. The store passes payloads through.  An event toggled (or added)
    in under an absent name is held as the one entry of that name, exactly
    as passed, and stays so while other names are toggled.  When a pinned
    name is toggled out and, after any toggles of other names, toggled in
    again with another event of the same name, the store holds under that
    name the new event alone. *)
Theorem togglePin_pass_through :
  (∀ st e between, isPinned (name e) st = false →
     Forall (λ e', name e' ≠ name e) between →
     entries_named (name e) (toggle_all (togglePin e st) between) = [e]
     ∧ entries_named (name e) (toggle_all (addPinnedEvent e st) between) = [e])
  ∧ (∀ st old new between,
       name new = name old →
       isPinned (name old) st = true →
       Forall (λ e, name e ≠ name old) between →
       entries_named (name old) (togglePin old st) = []
       ∧ entries_named (name old)
           (togglePin new (toggle_all (togglePin old st) between))
         = [new]).
Proof.
  split.
  - intros st e between H Hother.
    rewrite !entries_named_toggle_all_other by exact Hother.
    split; [by apply entries_named_toggle_in |].
    rewrite entries_named_add by exact H.
    by rewrite entries_named_absent, name_is_same.
  - intros st old new between Hname Hin Hother.
    pose proof (entries_named_toggle_out old st Hin) as Hout.
    split; [exact Hout |].
    rewrite <- Hname. apply entries_named_toggle_in.
    rewrite isPinned_entries, Hname, entries_named_toggle_all_other, Hout
      by exact Hother.
    done.
Qed.

Lemma togglePin_pass_through_witness :
  entries_named "Early Event"
    (togglePin mockEvent1_moved
       (toggle_all (togglePin mockEvent1 (mkPinned [mockEvent1; mockEvent2]))
          [mockEvent3; mockEvent2]))
  = [mockEvent1_moved]
  ∧ entries_named "Late Event"
      (toggle_all (togglePin mockEvent3 (mkPinned [mockEvent1]))
         [mockEvent1; mockEvent2])
    = [mockEvent3].
Proof.
  destruct togglePin_pass_through as [Hin Hback]. split.
  - apply (Hback (mkPinned [mockEvent1; mockEvent2]) mockEvent1
             mockEvent1_moved [mockEvent3; mockEvent2]).
    + reflexivity.
    + reflexivity.
    + repeat constructor; discriminate.
  - apply (Hin (mkPinned [mockEvent1]) mockEvent3 [mockEvent1; mockEvent2]).
    + reflexivity.
    + repeat constructor; discriminate.
Defined.

(** C10. [removePinnedEvent n] leaves no entry named [n], however many
    there were; what it returns is a subsequence of the stored sequence
    (the order of the entries that stay is kept); the entries of every
    other name are the same ones, in the same order; and nothing but the
    entries named [n] is dropped. *)
Theorem removePinnedEvent_removes_all (st : PinnedState) (n : string) :
  entries_named n (removePinnedEvent n st) = []
  ∧ Forall (λ e, name e ≠ n) (pinnedEvents (removePinnedEvent n st))
  ∧ pinnedEvents (removePinnedEvent n st) `sublist_of` pinnedEvents st
  ∧ (∀ m, m ≠ n →
       entries_named m (removePinnedEvent n st) = entries_named m st)
  ∧ (length (pinnedEvents (removePinnedEvent n st))
     + length (entries_named n st) = length (pinnedEvents st))%nat.
Proof.
  split_and!.
  - rewrite entries_named_remove. by rewrite bool_decide_eq_true_2.
  - eapply Forall_impl; [apply filter_Forall |]. simpl. intros e.
    rewrite name_is_decide. by intros ?%negb_true_iff%bool_decide_eq_false.
  - apply filter_sublist.
  - intros m Hm. rewrite entries_named_remove.
    by rewrite bool_decide_eq_false_2.
  - apply filter_length_split.
Qed.

Lemma removePinnedEvent_removes_all_witness :
  entries_named "Middle Event"
    (removePinnedEvent "Early Event"
       (mkPinned [mockEvent1; mockEvent2; mockEvent1_moved; mockEvent3]))
  = [mockEvent2].
Proof.
  apply (removePinnedEvent_removes_all
           (mkPinned [mockEvent1; mockEvent2; mockEvent1_moved; mockEvent3])
           "Early Event").
  discriminate.
Defined.

(** From a state with two entries of one name, a single call removes both
    and keeps the others in order. *)
Example removePinnedEvent_duplicates :
  removePinnedEvent "Early Event"
    (mkPinned [mockEvent1; mockEvent2; mockEvent1_moved; mockEvent3])
  = mkPinned [mockEvent2; mockEvent3].
Proof. reflexivity. Qed.

(** ** The order of [sort] *)

Section sorted_order.
Context {A : Type} (comparefn : A → A → option Z).

Lemma sort_insert_perm x (l : list A) :
  JsHeap.sort_insert comparefn x l ≡ₚ x :: l.
Proof.
  induction l as [|y l IH]; simpl; [done |].
  destruct (_ <=? 0); [done |]. rewrite IH. apply Permutation_swap.
Qed.

Lemma sorted_order_perm (l : list A) : JsHeap.sorted_order comparefn l ≡ₚ l.
Proof.
  induction l as [|x l IH]; simpl; [done |].
  by rewrite sort_insert_perm, IH.
Qed.
End sorted_order.

Lemma by_time_le host a b :
  parseable host a → parseable host b →
  (JsHeap.SortCompare (by_time host) a b ≤ 0 ↔ time_le host a b)
  ∧ (0 < JsHeap.SortCompare (by_time host) a b → time_le host b a).
Proof.
  unfold parseable, JsHeap.SortCompare, by_time, time_le, JsDate.getTime.
  intros [x ->] [y ->]. simpl. lia.
Qed.

Lemma time_le_trans host a b c :
  time_le host a b → time_le host b c → time_le host a c.
Proof.
  unfold time_le.
  destruct (JsDate.new host (time a)), (JsDate.new host (time b)),
    (JsDate.new host (time c)); try done. lia.
Qed.

Lemma sort_insert_sorted host x l :
  parseable host x → Forall (parseable host) l →
  StronglySorted (time_le host) l →
  StronglySorted (time_le host) (JsHeap.sort_insert (by_time host) x l).
Proof.
  intros Hx Hl Hs. induction Hs as [|y l Hs IH Hy]; simpl.
  - repeat constructor.
  - apply Forall_cons in Hl as [Hpy Hl].
    destruct (by_time_le host x y Hx Hpy) as [Hle Hgt].
    destruct (Z.leb_spec (JsHeap.SortCompare (by_time host) x y) 0) as [H|H].
    + apply Hle in H. constructor; [by constructor |].
      constructor; [done |].
      eapply Forall_impl; [exact Hy |]. intros z. by apply time_le_trans.
    + constructor; [by apply IH |].
      rewrite sort_insert_perm. constructor; [by apply Hgt | done].
Qed.

Lemma sorted_order_sorted host l :
  Forall (parseable host) l →
  StronglySorted (time_le host) (JsHeap.sorted_order (by_time host) l).
Proof.
  induction 1 as [|x l Hx Hl IH]; simpl; [constructor |].
  apply sort_insert_sorted; [done | | done].
  by rewrite sorted_order_perm.
Qed.

(** ** The catalog store and the list view *)

Lemma alloc_fresh (h : heap) arr :
  h !! (JsHeap.alloc h arr).1 = None.
Proof. simpl. apply not_elem_of_dom, is_fresh. Qed.

Lemma sortedEvents_run host st (h : heap) arr :
  held_events h st = Some arr →
  let copy := fresh (dom h) in
  sortedEvents host st h
  = Some (copy, <[copy := JsHeap.sorted_order (by_time host) arr]>
                  (<[copy := arr]> h)).
Proof.
  unfold held_events. intros Hst. simpl.
  unfold sortedEvents, JsHeap.spread, JsHeap.sort, JsHeap.alloc.
  rewrite Hst. simpl. by rewrite lookup_insert_eq.
Qed.

(** [sortedEvents] sorts a copy.  From a store whose [events] array holds
    [arr] it returns a new array: the array the store refers to still
    holds [arr], no other array of the heap changes, and the new array
    holds a permutation of [arr] that, when every time parses, is in
    ascending order of time. *)
Lemma sortedEvents_sorted_copy (host : Host) (st : EventState) (h : heap)
    (arr : list Event) :
  held_events h st = Some arr →
  ∃ copy h' rendered,
    sortedEvents host st h = Some (copy, h')
    ∧ h !! copy = None
    ∧ h' !! copy = Some rendered
    ∧ held_events h' st = Some arr
    ∧ (∀ r, r ≠ copy → h' !! r = h !! r)
    ∧ rendered ≡ₚ arr
    ∧ (Forall (parseable host) arr →
       StronglySorted (time_le host) rendered).
Proof.
  unfold held_events. intros Hst.
  pose proof (alloc_fresh h arr) as Hfresh.
  set (copy := (JsHeap.alloc h arr).1) in *.
  assert (copy ≠ events st) as Hne by congruence.
  exists copy,
    (<[copy := JsHeap.sorted_order (by_time host) arr]> (<[copy := arr]> h)),
    (JsHeap.sorted_order (by_time host) arr).
  split_and!.
  - by apply sortedEvents_run.
  - exact Hfresh.
  - apply lookup_insert_eq.
  - by rewrite !lookup_insert_ne.
  - intros r Hr. by rewrite !lookup_insert_ne.
  - apply sorted_order_perm.
  - apply sorted_order_sorted.
Qed.

(** Events stored in the order latest, earliest, middle are rendered
    earliest first; the store keeps its order. *)
Example sortedEvents_T3_T1_T2 :
  let h := <[0%nat := [mockEvent3; mockEvent1; mockEvent2]]> (∅ : heap) in
  ∃ copy h',
    sortedEvents UtcHost.host (mkEventState 0) h = Some (copy, h')
    ∧ h' !! copy = Some [mockEvent1; mockEvent2; mockEvent3]
    ∧ held_events h' (mkEventState 0) = Some [mockEvent3; mockEvent1; mockEvent2].
Proof. simpl. eexists _, _. split_and!; vm_compute; reflexivity. Qed.

(** C9. [fetchEvents] makes the store hold the static dataset, whatever
    it held before, and a second call changes nothing further. *)
Theorem fetchEvents_replaces (eventsData : nat) (st : EventState) (h : heap) :
  held_events h (fetchEvents eventsData st) = h !! eventsData
  ∧ fetchEvents eventsData (fetchEvents eventsData st)
    = fetchEvents eventsData st.
Proof. done. Qed.

(** The view renders one card per event, in the sorted order. *)
Lemma cards_of_template sorted :
  cards_of (EventList_template sorted)
  = map (λ event, VEventCard (name event) event) sorted.
Proof.
  unfold cards_of, EventList_template. simpl.
  induction sorted as [|e l IH]; simpl; [done | by rewrite IH].
Qed.

(** Before [fetchEvents] the store holds a new, empty array. *)
Lemma eventStore_init_empty (h : heap) :
  let '(st, h') := eventStore_init h in
  held_events h' st = Some [] ∧ h !! events st = None.
Proof.
  simpl. unfold held_events. simpl. split; [apply lookup_insert_eq |].
  apply not_elem_of_dom, is_fresh.
Qed.

(** C7. What the list view renders for an empty catalog: the container
    with the heading [Events] and no card.  The elements other than cards
    are that heading for every catalog, so nothing in the rendering tells
    an empty catalog apart; the text [No events are available] that the
    component's test reads from the heading does not occur. *)
Theorem EventList_empty_render (host : Host) (st : EventState) (h : heap) :
  held_events h st = Some [] →
  (∃ h', EventList_render host st h
         = Some (VElement "div" "event-list" [VElement "h3" "" [VText "Events"]],
                 h'))
  ∧ (∀ sorted, non_cards_of (EventList_template sorted)
               = [VElement "h3" "" [VText "Events"]]).
Proof.
  intros Hst. split.
  - eexists. unfold EventList_render.
    rewrite (sortedEvents_run host st h [] Hst). simpl.
    by rewrite lookup_insert_eq.
  - intros sorted. unfold non_cards_of, EventList_template. simpl. f_equal.
    induction sorted as [|e l IH]; [done | exact IH].
Qed.

Lemma EventList_empty_render_witness :
  ∃ h', EventList_render UtcHost.host (mkEventState 0) (<[0%nat := []]> ∅)
        = Some (VElement "div" "event-list" [VElement "h3" "" [VText "Events"]],
                h').
Proof.
  apply (EventList_empty_render UtcHost.host (mkEventState 0)
           (<[0%nat := []]> ∅)).
  reflexivity.
Defined.

(** ** The date formatter *)

Lemma formatDate_returns host v :
  is_Some (JsDate.new host v) → ∃ s, formatDate host v = Return s.
Proof. intros [t Ht]. unfold formatDate. rewrite Ht. by eexists. Qed.

(** [formatCalendarDate] returns a pair of strings for every input. *)
Lemma formatCalendarDate_returns host v :
  ∃ c, formatCalendarDate host v = Return c.
Proof. by eexists. Qed.

(** C5. [formatDate] throws a [RangeError] whenever the date is invalid:
    for [undefined], and for every string the host's parser rejects. *)
Theorem formatDate_throws_on_invalid_date (host : Host) :
  formatDate host JsUndefined = Throw RangeError
  ∧ (∀ s, Date_parse host s = None →
          formatDate host (JsString s) = Throw RangeError).
Proof.
  split; [done |]. intros s Hs. unfold formatDate. simpl. by rewrite Hs.
Qed.

Lemma formatDate_throws_on_invalid_date_witness :
  formatDate UtcHost.host (JsString "not-a-date") = Throw RangeError
  ∧ formatDate UtcHost.host (JsString "") = Throw RangeError.
Proof.
  split; apply (formatDate_throws_on_invalid_date UtcHost.host); reflexivity.
Defined.

(** The five inputs of the formatter's contract, on a host whose local
    time is UTC. *)
Example formatDate_inputs :
  formatDate UtcHost.host JsNull = Return "Thursday, Jan 1, 1970, 12:00 AM"
  ∧ formatDate UtcHost.host JsUndefined = Throw RangeError
  ∧ formatDate UtcHost.host (JsString "") = Throw RangeError
  ∧ formatDate UtcHost.host (JsString "not-a-date") = Throw RangeError
  ∧ formatDate UtcHost.host (JsString "2025-03-15T10:00:00")
    = Return "Saturday, Mar 15, 2025, 10:00 AM".
Proof. split_and!; vm_compute; reflexivity. Qed.

Example formatCalendarDate_inputs :
  formatCalendarDate UtcHost.host JsNull = Return (mkCalendarDate "JAN" "1")
  ∧ formatCalendarDate UtcHost.host JsUndefined
    = Return (mkCalendarDate "INVALID DATE" "NaN")
  ∧ formatCalendarDate UtcHost.host (JsString "not-a-date")
    = Return (mkCalendarDate "INVALID DATE" "NaN")
  ∧ formatCalendarDate UtcHost.host (JsString "2025-03-15T10:00:00")
    = Return (mkCalendarDate "MAR" "15").
Proof. split_and!; vm_compute; reflexivity. Qed.

(** ** The detail modal and the scroll lock *)

Section modal.
Import Modal.

Lemma set_isOpen_changes i b pg :
  instances pg !! i = Some (negb b) →
  body_overflow (set_isOpen i b pg) = (if b then "hidden" else "")
  ∧ instances (set_isOpen i b pg) = <[i := b]> (instances pg)
  ∧ keydown_listeners (set_isOpen i b pg) = keydown_listeners pg.
Proof.
  intros H. unfold set_isOpen. rewrite H.
  rewrite bool_decide_eq_false_2 by (by destruct b). by destruct b.
Qed.

Lemma handleEscape_open key pg i :
  is_open i pg →
  handleEscape key pg i = (if String.eqb key "Escape" then closeModal i pg else pg).
Proof.
  intros H. unfold handleEscape. rewrite (bool_decide_eq_true_2 _ H).
  by rewrite andb_true_r.
Qed.

Lemma handleEscape_closed key pg i :
  ¬ is_open i pg → handleEscape key pg i = pg.
Proof.
  intros H. unfold handleEscape. rewrite (bool_decide_eq_false_2 _ H).
  by rewrite andb_false_r.
Qed.

Lemma closeModal_open i pg :
  is_open i pg →
  body_overflow (closeModal i pg) = ""
  ∧ instances (closeModal i pg) = <[i := false]> (instances pg)
  ∧ keydown_listeners (closeModal i pg) = keydown_listeners pg.
Proof. intros H. by apply (set_isOpen_changes i false). Qed.

(** Once a listener has released the lock, the listeners after it leave
    it released. *)
Lemma escape_keeps_released l pg :
  body_overflow pg = "" →
  body_overflow (foldl (handleEscape "Escape") pg l) = "".
Proof.
  revert pg. induction l as [|j l IH]; intros pg H; simpl; [done |].
  apply IH. destruct (decide (is_open j pg)) as [Hj|Hj].
  - rewrite handleEscape_open by done. by apply closeModal_open.
  - by rewrite handleEscape_closed.
Qed.

Lemma escape_releases i l pg :
  is_open i pg → i ∈ l →
  body_overflow (foldl (handleEscape "Escape") pg l) = "".
Proof.
  revert pg. induction l as [|j l IH]; intros pg Hi Hin; simpl.
  - by apply elem_of_nil in Hin.
  - destruct (decide (is_open j pg)) as [Hj|Hj].
    + apply escape_keeps_released. rewrite handleEscape_open by done.
      by apply closeModal_open.
    + rewrite handleEscape_closed by done. apply IH; [done |].
      apply elem_of_cons in Hin as [->|]; done.
Qed.

Lemma lock_has_holder_set_isOpen i b pg :
  lock_has_holder pg → lock_has_holder (set_isOpen i b pg).
Proof.
  intros H. unfold set_isOpen.
  destruct (instances pg !! i) as [old|] eqn:E; [|done].
  destruct (bool_decide_reflect (old = b)) as [->|Hold]; [done |].
  destruct b; simpl.
  - intros _. exists i. unfold is_open. simpl. apply lookup_insert_eq.
  - intros Hl. discriminate Hl.
Qed.

Lemma lock_has_holder_escape key l pg :
  lock_has_holder pg → lock_has_holder (foldl (handleEscape key) pg l).
Proof.
  revert pg. induction l as [|j l IH]; intros pg H; [done |].
  simpl. apply IH. unfold handleEscape. destruct (_ && _); [|done].
  by apply lock_has_holder_set_isOpen.
Qed.

Lemma lock_has_holder_step pg ev :
  lock_has_holder pg → lock_has_holder (step pg ev).
Proof.
  intros H. destruct ev as [j b|j|j|j|j|key|j]; simpl.
  - unfold mount. destruct (instances pg !! j) eqn:E; [done |].
    intros Hl. destruct (H Hl) as [k Hk]. exists k. unfold is_open in *.
    simpl. rewrite lookup_insert_ne; [done | congruence].
  - by apply lock_has_holder_set_isOpen.
  - case_bool_decide; [|done]. by apply lock_has_holder_set_isOpen.
  - case_bool_decide; [|done]. by apply lock_has_holder_set_isOpen.
  - done.
  - by apply lock_has_holder_escape.
  - unfold unmount. destruct (instances pg !! j); [|done].
    intros Hl. discriminate Hl.
Qed.

Lemma lock_has_holder_run trace pg :
  lock_has_holder pg → lock_has_holder (run pg trace).
Proof.
  revert pg. induction trace as [|ev trace IH]; intros pg H; [done |].
  simpl. by apply IH, lock_has_holder_step.
Qed.

Lemma listeners_set_isOpen i b pg :
  listeners_mounted pg → listeners_mounted (set_isOpen i b pg).
Proof.
  intros H. unfold set_isOpen.
  destruct (instances pg !! i) as [old|] eqn:E; [|done].
  destruct (bool_decide_reflect (old = b)); [done |].
  intros j.
  assert (instances (watch_isOpen b
            (set_instances (<[i:=b]> (instances pg)) pg))
          = <[i:=b]> (instances pg)) as -> by (by destruct b).
  assert (keydown_listeners (watch_isOpen b
            (set_instances (<[i:=b]> (instances pg)) pg))
          = keydown_listeners pg) as -> by (by destruct b).
  rewrite (H j).
  destruct (decide (i = j)) as [->|Hij].
  - rewrite E, lookup_insert_eq. by split.
  - by rewrite lookup_insert_ne.
Qed.

Lemma listeners_escape key l pg :
  listeners_mounted pg → listeners_mounted (foldl (handleEscape key) pg l).
Proof.
  revert pg. induction l as [|j l IH]; intros pg H; simpl; [done |].
  apply IH. unfold handleEscape. destruct (_ && _); [|done].
  by apply listeners_set_isOpen.
Qed.

Lemma listeners_step pg ev :
  listeners_mounted pg → listeners_mounted (step pg ev).
Proof.
  intros H. destruct ev as [i b|i|i|i|i|key|i]; simpl.
  - unfold mount. destruct (instances pg !! i) eqn:E; [done |].
    intros j. simpl. rewrite elem_of_app, list_elem_of_singleton, (H j).
    destruct (decide (i = j)) as [->|Hij].
    + rewrite lookup_insert_eq. split; [done | by right].
    + rewrite lookup_insert_ne by done. split; [|by left].
      intros [?|?]; [done | congruence].
  - by apply listeners_set_isOpen.
  - case_bool_decide; [|done]. by apply listeners_set_isOpen.
  - case_bool_decide; [|done]. by apply listeners_set_isOpen.
  - done.
  - by apply listeners_escape.
  - unfold unmount. destruct (instances pg !! i) eqn:E; [|done].
    intros j.
    cbn [keydown_listeners instances set_overflow set_listeners set_instances].
    rewrite elem_of_filter, (H j).
    destruct (decide (i = j)) as [->|Hij].
    + rewrite lookup_delete_eq, Nat.eqb_refl. simpl.
      split; [by intros [_ ?] | by intros [? ?]].
    + rewrite lookup_delete_ne by done.
      assert ((j =? i)%nat = false) as -> by (apply Nat.eqb_neq; congruence).
      simpl. tauto.
Qed.

Lemma listeners_run trace pg :
  listeners_mounted pg → listeners_mounted (run pg trace).
Proof.
  revert pg. induction trace as [|ev trace IH]; intros pg H; [done |].
  simpl. by apply IH, listeners_step.
Qed.

Lemma listeners_init : listeners_mounted page_init.
Proof.
  intros i. simpl. rewrite lookup_empty.
  split; [by intros ?%elem_of_nil | by intros [? ?]].
Qed.
End modal.

(** C4 as stated fails.  A card's modal is open while the pinned card of
    the same event leaves the page: the teardown of that card's closed
    modal releases the lock under the open one. *)
Lemma scroll_lock_released_while_open :
  ¬ (∀ trace i, Modal.is_open i (Modal.run Modal.page_init trace) →
                Modal.locked (Modal.run Modal.page_init trace)).
Proof.
  intros H.
  specialize (H [Modal.Mount 0 false; Modal.Mount 1 false; Modal.CardClick 0;
                 Modal.Unmount 1] 0%nat eq_refl).
  discriminate H.
Qed.

(** * Further properties of the code *)

(** ** The pinned-set store: how calls compose *)

Lemma js_filter_app {A} (p : A → bool) (l k : list A) :
  JsArray.filter p (l ++ k) = JsArray.filter p l ++ JsArray.filter p k.
Proof.
  induction l as [|y l IH]; [done |]. cbn [app JsArray.filter].
  destruct (p y); cbn [app]; by rewrite IH.
Qed.

Lemma isPinned_false_filter_all x (l : list Event) :
  JsArray.some (name_is x) l = false →
  JsArray.filter (λ e, negb (name_is x e)) l = l.
Proof.
  intros H. apply filter_all. rewrite <- H. apply some_ext.
  intros e. by destruct (name_is x e).
Qed.

(** X1. Pinning and at once unpinning a name that was not pinned gives
    back the store exactly as it was, whatever payloads the two calls
    carry. *)
Theorem togglePin_twice_absent (st : PinnedState) (e e' : Event) :
  name e' = name e →
  isPinned (name e) st = false →
  togglePin e' (togglePin e st) = st.
Proof.
  intros Hname Habsent.
  assert (togglePin e st = addPinnedEvent e st) as ->.
  { unfold togglePin. rewrite findIndex_found. unfold isPinned in Habsent.
    by rewrite Habsent. }
  assert (isPinned (name e') (addPinnedEvent e st) = true) as Hin.
  { by rewrite Hname, isPinned_add, name_is_same, orb_true_r. }
  unfold togglePin at 1. rewrite findIndex_found. unfold isPinned in Hin.
  rewrite Hin, Hname. clear Hin.
  destruct st as [l]. unfold isPinned in Habsent.
  unfold addPinnedEvent, removePinnedEvent. cbn [pinnedEvents] in *.
  rewrite Habsent. cbn [negb pinnedEvents]. f_equal.
  rewrite filter_push, name_is_same. cbn [negb].
  rewrite app_nil_r. by apply isPinned_false_filter_all.
Qed.

Lemma togglePin_twice_absent_witness :
  togglePin mockEvent1_moved (togglePin mockEvent1 (mkPinned [mockEvent2]))
  = mkPinned [mockEvent2].
Proof.
  apply (togglePin_twice_absent (mkPinned [mockEvent2]) mockEvent1
           mockEvent1_moved); reflexivity.
Defined.

(** X2. Unpinning a pinned name and pinning it again moves it: the
    entries of the other names keep their order and the name's entry, with
    the payload of the second call, is now the last one. *)
Theorem togglePin_twice_pinned (st : PinnedState) (e e' : Event) :
  name e' = name e →
  isPinned (name e) st = true →
  pinnedEvents (togglePin e' (togglePin e st))
  = JsArray.filter (λ x, negb (name_is (name e) x)) (pinnedEvents st) ++ [e'].
Proof.
  intros Hname Hin.
  assert (togglePin e st = removePinnedEvent (name e) st) as ->.
  { unfold togglePin. rewrite findIndex_found. unfold isPinned in Hin.
    by rewrite Hin. }
  assert (isPinned (name e') (removePinnedEvent (name e) st) = false) as Hout.
  { rewrite Hname, isPinned_remove. by rewrite bool_decide_eq_true_2. }
  unfold togglePin. rewrite findIndex_found. unfold isPinned in Hout.
  rewrite Hout. unfold addPinnedEvent. by rewrite Hout.
Qed.

Lemma togglePin_twice_pinned_witness :
  pinnedEvents
    (togglePin mockEvent1_moved
       (togglePin mockEvent1 (mkPinned [mockEvent1; mockEvent2; mockEvent3])))
  = [mockEvent2; mockEvent3; mockEvent1_moved].
Proof.
  apply (togglePin_twice_pinned (mkPinned [mockEvent1; mockEvent2; mockEvent3])
           mockEvent1 mockEvent1_moved); reflexivity.
Defined.

(** X3. [addPinnedEvent] keeps the first payload: adding an event under a
    name that an earlier [addPinnedEvent] was called with changes nothing,
    also when the second payload differs. *)
Theorem addPinnedEvent_first_wins (st : PinnedState) (e e' : Event) :
  name e' = name e →
  addPinnedEvent e' (addPinnedEvent e st) = addPinnedEvent e st.
Proof.
  intros Hname.
  assert (isPinned (name e') (addPinnedEvent e st) = true) as H.
  { by rewrite Hname, isPinned_add, name_is_same, orb_true_r. }
  unfold isPinned in H. unfold addPinnedEvent at 1. by rewrite H.
Qed.

Lemma addPinnedEvent_first_wins_witness :
  addPinnedEvent mockEvent1_moved (addPinnedEvent mockEvent1 pinned_init)
  = mkPinned [mockEvent1].
Proof.
  apply (addPinnedEvent_first_wins pinned_init mockEvent1 mockEvent1_moved).
  reflexivity.
Defined.

(** X4. No call reorders the store.  After any of the three actions the
    old entries that remain are a subsequence of the old sequence; if an
    entry is appended, nothing was removed, the entry is the event the
    call carries, and no old entry had its name. *)
Theorem pinned_exec_keeps_order (st : PinnedState) (c : pinned_call) :
  ∃ kept added,
    pinnedEvents (pinned_exec st c) = kept ++ added
    ∧ kept `sublist_of` pinnedEvents st
    ∧ (added = []
       ∨ ∃ e, added = [e]
              ∧ kept = pinnedEvents st
              ∧ isPinned (name e) st = false
              ∧ (c = CallAdd e ∨ c = CallToggle e)).
Proof.
  assert (∀ e, (c = CallAdd e ∨ c = CallToggle e) →
            ∃ kept added,
              pinnedEvents (addPinnedEvent e st) = kept ++ added
              ∧ kept `sublist_of` pinnedEvents st
              ∧ (added = []
                 ∨ ∃ e', added = [e'] ∧ kept = pinnedEvents st
                         ∧ isPinned (name e') st = false
                         ∧ (c = CallAdd e' ∨ c = CallToggle e')))
    as Hadd.
  { intros e Hc. unfold addPinnedEvent. fold (isPinned (name e) st).
    destruct (isPinned (name e) st) eqn:E; cbn [negb].
    - exists (pinnedEvents st), []. rewrite app_nil_r.
      split_and!; [done | done | by left].
    - exists (pinnedEvents st), [e].
      split_and!; [done | done |]. right. by exists e. }
  assert (∀ n, ∃ kept added,
            pinnedEvents (removePinnedEvent n st) = kept ++ added
            ∧ kept `sublist_of` pinnedEvents st
            ∧ (added = []
               ∨ ∃ e', added = [e'] ∧ kept = pinnedEvents st
                       ∧ isPinned (name e') st = false
                       ∧ (c = CallAdd e' ∨ c = CallToggle e')))
    as Hrem.
  { intros n. eexists _, []. rewrite app_nil_r.
    split_and!; [done | apply filter_sublist | by left]. }
  destruct c as [e|n|e] eqn:Ec; cbn [pinned_exec].
  - apply Hadd. by left.
  - apply Hrem.
  - unfold togglePin. destruct (-1 <? _); [apply Hrem | apply Hadd; by right].
Qed.

Lemma pinned_names_remove x st :
  pinned_names (removePinnedEvent x st)
  = JsArray.filter (λ n, negb (String.eqb n x)) (pinned_names st).
Proof.
  unfold pinned_names, removePinnedEvent. cbn [pinnedEvents].
  induction (pinnedEvents st) as [|e l IH]; [done |].
  cbn [JsArray.filter map]. unfold name_is at 1.
  destruct (String.eqb (name e) x); cbn [negb map]; by rewrite IH.
Qed.

Lemma pinned_names_toggle e st :
  pinned_names (togglePin e st)
  = if isPinned (name e) st
    then JsArray.filter (λ n, negb (String.eqb n (name e))) (pinned_names st)
    else pinned_names st ++ [name e].
Proof.
  unfold togglePin. rewrite findIndex_found. fold (isPinned (name e) st).
  destruct (isPinned (name e) st) eqn:E; [apply pinned_names_remove |].
  unfold addPinnedEvent. fold (isPinned (name e) st). rewrite E.
  unfold pinned_names, JsArray.push. cbn [negb pinnedEvents].
  by rewrite map_app.
Qed.

Lemma toggle_all_snoc st events e :
  toggle_all st (events ++ [e]) = togglePin e (toggle_all st events).
Proof. unfold toggle_all. by rewrite foldl_snoc. Qed.

Lemma toggle_count_snoc n events e :
  toggle_count n (events ++ [e])
  = (toggle_count n events + (if bool_decide (name e = n) then 1 else 0))%nat.
Proof.
  unfold toggle_count. rewrite js_filter_app, length_app.
  cbn [JsArray.filter]. rewrite name_is_decide. by case_bool_decide.
Qed.

Lemma remove_dups_snoc (l : list string) x :
  remove_dups (l ++ [x])
  = JsArray.filter (λ n, negb (String.eqb n x)) (remove_dups l) ++ [x].
Proof.
  induction l as [|y l IH]; [done |].
  cbn [app remove_dups].
  destruct (decide_rel elem_of y (l ++ [x])) as [H1|H1];
    destruct (decide_rel elem_of y l) as [H2|H2].
  - exact IH.
  - apply elem_of_app in H1 as [H1|H1%list_elem_of_singleton]; [done |].
    subst y. cbn [JsArray.filter]. rewrite String.eqb_refl. exact IH.
  - destruct H1. apply elem_of_app. by left.
  - assert (String.eqb y x = false) as Hyx.
    { apply String.eqb_neq. intros ->. apply H1, elem_of_app. right. left. }
    cbn [JsArray.filter]. rewrite Hyx. cbn [negb app]. by rewrite IH.
Qed.

Lemma names_left_pinned_snoc events e :
  names_left_pinned (events ++ [e])
  = JsArray.filter
      (λ n, negb (String.eqb n (name e)) && Nat.odd (toggle_count n events))
      (remove_dups (map name events))
    ++ (if Nat.odd (toggle_count (name e) events) then [] else [name e]).
Proof.
  unfold names_left_pinned. rewrite map_app. cbn [map].
  rewrite remove_dups_snoc.
  rewrite js_filter_app, filter_filter. cbn [JsArray.filter]. f_equal.
  - apply filter_ext. intros n. rewrite toggle_count_snoc.
    destruct (String.eqb_spec n (name e)) as [->|Hne]; [done |].
    rewrite bool_decide_eq_false_2 by congruence. by rewrite Nat.add_0_r.
  - rewrite toggle_count_snoc, bool_decide_eq_true_2 by done.
    rewrite Nat.odd_add. simpl (Nat.odd 1).
    by destruct (Nat.odd (toggle_count (name e) events)).
Qed.

(** X5. After any sequence of [togglePin] calls on the empty store, the
    stored names are the names called an odd number of times, each once,
    in the order of their last calls: a name pinned again moves behind the
    names that stayed pinned. *)
Theorem toggle_all_names (events : list Event) :
  pinned_names (toggle_all pinned_init events) = names_left_pinned events.
Proof.
  induction events as [|e events IH] using rev_ind; [done |].
  rewrite toggle_all_snoc, pinned_names_toggle, names_left_pinned_snoc, IH.
  rewrite isPinned_toggle_all. cbn [isPinned pinned_init pinnedEvents
    JsArray.some xorb].
  destruct (Nat.odd (toggle_count (name e) events)) eqn:Hodd.
  - rewrite app_nil_r. unfold names_left_pinned. rewrite filter_filter.
    apply filter_ext. intros n. apply andb_comm.
  - f_equal. unfold names_left_pinned. apply filter_ext. intros n.
    destruct (String.eqb_spec n (name e)) as [->|Hne]; [|done].
    by rewrite Hodd.
Qed.

(** Three names pinned, the first unpinned and pinned again: it comes
    last. *)
Example toggle_all_names_order :
  pinned_names
    (toggle_all pinned_init
       [mockEvent1; mockEvent2; mockEvent3; mockEvent1; mockEvent3;
        mockEvent1_moved])
  = ["Middle Event"; "Early Event"].
Proof. reflexivity. Qed.

(** ** The pinned strip, [PinnedEvents.vue] *)

Lemma pinned_cards_in_cards (l : list Event) :
  (fix go (ts : list vtree) : list (string * Event) :=
     match ts with
     | [] => []
     | c :: rest => pinned_cards_in c ++ go rest
     end) (map (λ event, TPinnedEventCard (name event) event) l)
  = map (λ event, (name event, event)) l.
Proof. induction l as [|e l IH]; [done |]. cbn. by rewrite IH. Qed.

Lemma strip_cards_store st :
  strip_cards st = map (λ event, (name event, event)) (pinnedEvents st).
Proof.
  unfold strip_cards, PinnedEvents_template.
  destruct (pinnedEvents st) as [|e l] eqn:E; [done |].
  rewrite (proj2 (Z.ltb_lt _ _)) by (cbn [length]; lia).
  cbn [pinned_cards_in]. rewrite pinned_cards_in_cards.
  cbn [app]. apply app_nil_r.
Qed.

Lemma isPinned_of_member e st :
  e ∈ pinnedEvents st → isPinned (name e) st = true.
Proof.
  intros Hin. rewrite isPinned_elem. apply bool_decide_eq_true_2.
  unfold pinned_names. by apply (list_elem_of_fmap_2 name).
Qed.

(** X6. The pinned strip is rendered exactly when the store is not empty.
    After a sequence of [togglePin] calls on the empty store that is when
    some name was called an odd number of times; the strip is gone again
    as soon as every name has been toggled an even number of times. *)
Theorem PinnedEvents_hidden_iff (events : list Event) :
  PinnedEvents_template (toggle_all pinned_init events) = None
  ↔ ∀ n, Nat.odd (toggle_count n events) = false.
Proof.
  set (st := toggle_all pinned_init events).
  assert (PinnedEvents_template st = None ↔ pinnedEvents st = []) as ->.
  { unfold PinnedEvents_template. destruct (pinnedEvents st); [done |].
    rewrite (proj2 (Z.ltb_lt _ _)) by (cbn [length]; lia). split; done. }
  split.
  - intros Hnil n.
    rewrite <- (xorb_false_l (Nat.odd _)).
    change false with (isPinned n pinned_init) at 1.
    rewrite <- isPinned_toggle_all. fold st. unfold isPinned.
    by rewrite Hnil.
  - intros Heven. destruct (pinnedEvents st) as [|e l] eqn:E; [done |].
    assert (isPinned (name e) st = true) as Hin
      by (apply isPinned_of_member; rewrite E; left).
    unfold st in Hin. rewrite isPinned_toggle_all in Hin.
    cbn [isPinned pinned_init pinnedEvents JsArray.some xorb] in Hin.
    rewrite Heven in Hin. discriminate.
Qed.

Lemma PinnedEvents_hidden_iff_witness :
  PinnedEvents_template
    (toggle_all pinned_init [mockEvent1; mockEvent2; mockEvent2; mockEvent1])
  = None.
Proof.
  apply (PinnedEvents_hidden_iff
           [mockEvent1; mockEvent2; mockEvent2; mockEvent1]).
  intros n. unfold toggle_count. cbn [JsArray.filter].
  rewrite !name_is_decide. repeat case_bool_decide; reflexivity.
Defined.

(** X7. In every state reached from the empty store the strip shows one
    card per stored entry, in the store's order, under keys that are
    pairwise distinct, and each card's pin button reads [Unpin event]. *)
Theorem PinnedEvents_cards (cs : list pinned_call) :
  let st := pinned_run pinned_init cs in
  strip_cards st = map (λ event, (name event, event)) (pinnedEvents st)
  ∧ NoDup (strip_cards st).*1
  ∧ Forall (λ card, pin_aria_label card.2 st = "Unpin event") (strip_cards st).
Proof.
  intros st. rewrite strip_cards_store. split_and!; [done | |].
  - rewrite <- list_fmap_compose.
    apply (pinned_run_NoDup cs pinned_init). constructor.
  - apply Forall_fmap, Forall_forall. intros e He. cbn.
    unfold pin_aria_label. by rewrite (isPinned_of_member e st He).
Qed.

(** X8. All pin buttons of one name read the same and flip together: a
    toggle with an event of that name turns [Pin] into [Unpin] and back,
    a toggle of another name leaves the label as it is. *)
Theorem pin_label_flips (st : PinnedState) (shown toggled : Event) :
  pin_text shown (togglePin toggled st)
  = (if bool_decide (name toggled = name shown)
     then (if isPinned (name shown) st then "Pin" else "Unpin")
     else pin_text shown st)
  ∧ pin_aria_label shown (togglePin toggled st)
    = (if bool_decide (name toggled = name shown)
       then (if isPinned (name shown) st then "Pin event" else "Unpin event")
       else pin_aria_label shown st).
Proof.
  unfold pin_text, pin_aria_label. rewrite isPinned_toggle.
  case_bool_decide; by destruct (isPinned (name shown) st).
Qed.

(** X9. Unpinning from a card of the strip removes that card and no
    other: when the stored names are distinct, toggling a stored event
    takes exactly that entry out and leaves the rest in place. *)
Theorem togglePin_removes_one (st : PinnedState) (e : Event)
    (before after : list Event) :
  NoDup (pinned_names st) →
  pinnedEvents st = before ++ e :: after →
  pinnedEvents (togglePin e st) = before ++ after.
Proof.
  intros Hnd Hsplit.
  assert (isPinned (name e) st = true) as Hin.
  { apply isPinned_of_member. rewrite Hsplit, elem_of_app. right. left. }
  unfold togglePin. rewrite findIndex_found. unfold isPinned in Hin.
  rewrite Hin. unfold removePinnedEvent. cbn [pinnedEvents].
  unfold pinned_names in Hnd. rewrite Hsplit in *.
  rewrite fmap_app, fmap_cons in Hnd.
  apply NoDup_app in Hnd as (_ & Hdisj & Hnd).
  apply NoDup_cons in Hnd as [Hafter _].
  assert (∀ l, name e ∉ name <$> l →
               JsArray.filter (λ x, negb (name_is (name e) x)) l = l) as Hkeep.
  { intros l Hl. apply isPinned_false_filter_all.
    rewrite some_name_is_elem. by apply bool_decide_eq_false_2. }
  clear Hin.
  rewrite js_filter_app. cbn [JsArray.filter]. rewrite name_is_same.
  cbn [negb].
  rewrite !Hkeep; [done | done |].
  intros Hb. apply (Hdisj _ Hb). left.
Qed.

Lemma togglePin_removes_one_witness :
  pinnedEvents (togglePin mockEvent2 (mkPinned [mockEvent1; mockEvent2; mockEvent3]))
  = [mockEvent1; mockEvent3].
Proof.
  apply (togglePin_removes_one (mkPinned [mockEvent1; mockEvent2; mockEvent3])
           mockEvent2 [mockEvent1] [mockEvent3]).
  - repeat constructor; rewrite ?elem_of_cons; try apply not_elem_of_nil;
      intros H; repeat (destruct H as [H|H]; [discriminate H |]);
      by apply elem_of_nil in H.
  - reflexivity.
Defined.

(** ** The detail modal: keys, clicks and the life of the listener *)

Section modal_more.
Import Modal.

Lemma set_isOpen_frame i b pg :
  keydown_listeners (set_isOpen i b pg) = keydown_listeners pg
  ∧ ∀ j, is_Some (instances (set_isOpen i b pg) !! j)
         ↔ is_Some (instances pg !! j).
Proof.
  unfold set_isOpen. destruct (instances pg !! i) as [old|] eqn:E; [|done].
  destruct (bool_decide_reflect (old = b)); [done |].
  assert (instances (watch_isOpen b
            (set_instances (<[i:=b]> (instances pg)) pg))
          = <[i:=b]> (instances pg)) as -> by (by destruct b).
  split; [by destruct b |]. intros j.
  destruct (decide (i = j)) as [->|].
  - rewrite lookup_insert_eq, E. by split.
  - by rewrite lookup_insert_ne.
Qed.

Lemma set_isOpen_open j i b pg :
  is_open j (set_isOpen i b pg)
  ↔ if decide (j = i) then is_Some (instances pg !! i) ∧ b = true
    else is_open j pg.
Proof.
  unfold set_isOpen, is_open.
  destruct (instances pg !! i) as [old|] eqn:E.
  - destruct (bool_decide_reflect (old = b)) as [->|Hold].
    + destruct (decide (j = i)) as [->|]; [|done]. rewrite E.
      split; [intros [= ->]; by split | intros [_ ->]; done].
    + assert (instances (watch_isOpen b
                (set_instances (<[i:=b]> (instances pg)) pg))
              = <[i:=b]> (instances pg)) as -> by (by destruct b).
      destruct (decide (j = i)) as [->|].
      * rewrite lookup_insert_eq.
        split; [intros [= ->]; by split | intros [_ ->]; done].
      * by rewrite lookup_insert_ne.
  - destruct (decide (j = i)) as [->|]; [|done]. rewrite E.
    split; [done | by intros [[? ?] _]].
Qed.

Lemma handleEscape_open_iff key pg j k :
  is_open j (handleEscape key pg k)
  ↔ is_open j pg ∧ ¬ (String.eqb key "Escape" = true ∧ j = k).
Proof.
  unfold handleEscape. destruct (String.eqb key "Escape"); cbn [andb].
  - destruct (decide (instances pg !! k = Some true)) as [Hk|Hk];
      [rewrite (bool_decide_eq_true_2 _ Hk)
      |rewrite (bool_decide_eq_false_2 _ Hk)].
    + unfold closeModal. rewrite set_isOpen_open.
      destruct (decide (j = k)) as [->|Hjk].
      * split; [by intros [_ ?] | intros [_ H]; by destruct H].
      * split; [intros ?; split; [done | by intros [_ ?]] | by intros [? _]].
    + split; [|by intros [? _]]. intros Hj. split; [done |].
      intros [_ ->]. by apply Hk.
  - split; [intros ?; split; [done | by intros [? _]] | by intros [? _]].
Qed.

Lemma escape_open_iff key l pg j :
  is_open j (foldl (handleEscape key) pg l)
  ↔ is_open j pg ∧ ¬ (String.eqb key "Escape" = true ∧ j ∈ l).
Proof.
  revert pg. induction l as [|k l IH]; intros pg; cbn [foldl].
  - split; [intros ?; split; [done |] | by intros [? _]].
    by intros [_ ?%elem_of_nil].
  - rewrite IH, handleEscape_open_iff, elem_of_cons. tauto.
Qed.

Lemma escape_frame key l pg :
  keydown_listeners (foldl (handleEscape key) pg l) = keydown_listeners pg
  ∧ ∀ j, is_Some (instances (foldl (handleEscape key) pg l) !! j)
         ↔ is_Some (instances pg !! j).
Proof.
  revert pg. induction l as [|k l IH]; intros pg; cbn [foldl]; [done |].
  destruct (IH (handleEscape key pg k)) as [-> Hm].
  assert (keydown_listeners (handleEscape key pg k) = keydown_listeners pg
          ∧ ∀ j, is_Some (instances (handleEscape key pg k) !! j)
                 ↔ is_Some (instances pg !! j)) as [-> Hk].
  { unfold handleEscape. destruct (_ && _); [apply set_isOpen_frame | done]. }
  split; [done |]. intros j. by rewrite Hm, Hk.
Qed.

Lemma escape_ignored key l pg :
  key ≠ "Escape" ∨ (∀ i, ¬ is_open i pg) →
  foldl (handleEscape key) pg l = pg.
Proof.
  intros H. induction l as [|k l IH]; [done |]. cbn [foldl].
  assert (handleEscape key pg k = pg) as ->; [|exact IH].
  unfold handleEscape. destruct H as [H|H].
  - by rewrite (proj2 (String.eqb_neq _ _) H).
  - rewrite (bool_decide_eq_false_2 _ (H k)). by rewrite andb_false_r.
Qed.

Lemma listeners_NoDup_step pg ev :
  listeners_mounted pg → NoDup (keydown_listeners pg) →
  NoDup (keydown_listeners (step pg ev)).
Proof.
  intros Hm Hnd. destruct ev as [i b|i|i|i|i|key|i]; cbn [step].
  - unfold mount. destruct (instances pg !! i) eqn:E; [done |].
    cbn [keydown_listeners set_listeners]. apply NoDup_app.
    split_and!; [done | | apply NoDup_singleton].
    intros j Hj ->%list_elem_of_singleton. apply Hm in Hj as [? Hj].
    congruence.
  - unfold openModal. by rewrite (proj1 (set_isOpen_frame i true pg)).
  - case_bool_decide; [|done]. unfold handleOverlayClick, closeModal.
    by rewrite (proj1 (set_isOpen_frame i false pg)).
  - case_bool_decide; [|done]. unfold closeModal.
    by rewrite (proj1 (set_isOpen_frame i false pg)).
  - done.
  - by rewrite (proj1 (escape_frame key (keydown_listeners pg) pg)).
  - unfold unmount. destruct (instances pg !! i); [|done].
    cbn [keydown_listeners set_overflow set_listeners].
    eapply sublist_NoDup; [exact Hnd | apply filter_sublist].
Qed.

Lemma listeners_NoDup_run trace pg :
  listeners_mounted pg → NoDup (keydown_listeners pg) →
  NoDup (keydown_listeners (run pg trace)).
Proof.
  revert pg. induction trace as [|ev trace IH]; intros pg Hm Hnd; [done |].
  cbn. apply IH; [by apply listeners_step | by apply listeners_NoDup_step].
Qed.
End modal_more.

(** X10. The Escape listener lives as long as the component: in every
    reachable state the [keydown] listeners are exactly the mounted
    instances, open or closed, each of them once. *)
Theorem keydown_listeners_lifetime (trace : list Modal.ui_event) :
  (∀ i, i ∈ Modal.keydown_listeners (Modal.run Modal.page_init trace)
        ↔ is_Some (Modal.instances (Modal.run Modal.page_init trace) !! i))
  ∧ NoDup (Modal.keydown_listeners (Modal.run Modal.page_init trace)).
Proof.
  split.
  - apply (listeners_run trace _ listeners_init).
  - apply listeners_NoDup_run; [apply listeners_init | constructor].
Qed.

(** X11. A key other than Escape changes nothing, and neither does Escape
    while no modal is open. *)
Theorem keydown_ignored (pg : Modal.page) (key : string) :
  key ≠ "Escape" ∨ (∀ i, ¬ Modal.is_open i pg) →
  Modal.step pg (Modal.KeyDown key) = pg.
Proof. intros H. by apply escape_ignored. Qed.

Lemma keydown_ignored_witness :
  Modal.step
    (Modal.run Modal.page_init [Modal.Mount 0 false; Modal.CardClick 0])
    (Modal.KeyDown "Enter")
  = Modal.run Modal.page_init [Modal.Mount 0 false; Modal.CardClick 0].
Proof.
  apply (keydown_ignored _ "Enter"). left. discriminate.
Defined.

(** X12. In a reachable state the Escape key closes every open modal at
    once; it unmounts none and leaves the listeners in place. *)
Theorem escape_closes_all (pg : Modal.page) :
  page_reachable pg →
  (∀ i, ¬ Modal.is_open i (Modal.step pg (Modal.KeyDown "Escape")))
  ∧ (∀ i, is_Some (Modal.instances (Modal.step pg (Modal.KeyDown "Escape")) !! i)
          ↔ is_Some (Modal.instances pg !! i))
  ∧ Modal.keydown_listeners (Modal.step pg (Modal.KeyDown "Escape"))
    = Modal.keydown_listeners pg.
Proof.
  intros [trace ->]. cbn [Modal.step].
  destruct (escape_frame "Escape"
              (Modal.keydown_listeners (Modal.run Modal.page_init trace))
              (Modal.run Modal.page_init trace)) as [Hl Hm].
  split_and!; [| exact Hm | exact Hl].
  intros i [Hopen Hnot]%escape_open_iff. apply Hnot. split; [done |].
  apply (listeners_run trace _ listeners_init). by eexists.
Qed.

Lemma escape_closes_all_witness :
  ¬ Modal.is_open 0
      (Modal.step
         (Modal.run Modal.page_init
            [Modal.Mount 0 false; Modal.Mount 1 false; Modal.CardClick 0;
             Modal.CardClick 1])
         (Modal.KeyDown "Escape"))
  ∧ ¬ Modal.is_open 1
        (Modal.step
           (Modal.run Modal.page_init
              [Modal.Mount 0 false; Modal.Mount 1 false; Modal.CardClick 0;
               Modal.CardClick 1])
           (Modal.KeyDown "Escape")).
Proof.
  destruct (escape_closes_all
              (Modal.run Modal.page_init
                 [Modal.Mount 0 false; Modal.Mount 1 false; Modal.CardClick 0;
                  Modal.CardClick 1])) as [Hclosed _].
  - by eexists.
  - split; apply Hclosed.
Defined.

(** X13. A closed modal opens only by its own card's click (or by being
    mounted open): no click elsewhere, on another card or inside another
    modal, and no key opens it. *)
Theorem opens_only_by_card_click (pg : Modal.page) (ev : Modal.ui_event)
    (i : nat) :
  ¬ Modal.is_open i pg →
  Modal.is_open i (Modal.step pg ev) →
  ev = Modal.CardClick i ∨ ev = Modal.Mount i true.
Proof.
  intros Hclosed Hopen.
  destruct ev as [j b|j|j|j|j|key|j]; cbn [Modal.step] in Hopen.
  - unfold Modal.mount in Hopen.
    destruct (Modal.instances pg !! j) eqn:E; [done |].
    unfold Modal.is_open in *. cbn in Hopen.
    destruct (decide (j = i)) as [->|Hne].
    + rewrite lookup_insert_eq in Hopen. right. congruence.
    + by rewrite lookup_insert_ne in Hopen.
  - apply set_isOpen_open in Hopen.
    destruct (decide (i = j)) as [->|]; [by left | done].
  - case_bool_decide; [|done]. apply set_isOpen_open in Hopen.
    destruct (decide (i = j)); [by destruct Hopen | done].
  - case_bool_decide; [|done]. apply set_isOpen_open in Hopen.
    destruct (decide (i = j)); [by destruct Hopen | done].
  - done.
  - by apply escape_open_iff in Hopen as [? _].
  - unfold Modal.unmount in Hopen.
    destruct (Modal.instances pg !! j) eqn:E; [|done].
    unfold Modal.is_open in *. cbn in Hopen.
    destruct (decide (j = i)) as [->|Hne].
    + by rewrite lookup_delete_eq in Hopen.
    + by rewrite lookup_delete_ne in Hopen.
Qed.

Lemma opens_only_by_card_click_witness :
  Modal.CardClick 0 = Modal.CardClick 0
  ∨ Modal.CardClick 0 = Modal.Mount 0 true.
Proof.
  apply (opens_only_by_card_click
           (Modal.run Modal.page_init [Modal.Mount 0 false])
           (Modal.CardClick 0) 0%nat).
  - discriminate.
  - reflexivity.
Defined.

(** X14. An open modal closes only by a click on its backdrop or on its
    close button, by the Escape key, or by being unmounted: a click inside
    its content, any other key, and whatever happens to other instances
    leave it open. *)
Theorem closes_only_by (pg : Modal.page) (ev : Modal.ui_event) (i : nat) :
  Modal.is_open i pg →
  ¬ Modal.is_open i (Modal.step pg ev) →
  ev = Modal.OverlayClick i ∨ ev = Modal.CloseClick i
  ∨ ev = Modal.KeyDown "Escape" ∨ ev = Modal.Unmount i.
Proof.
  intros Hopen Hclosed.
  destruct ev as [j b|j|j|j|j|key|j]; cbn [Modal.step] in Hclosed.
  - destruct Hclosed. unfold Modal.mount.
    destruct (Modal.instances pg !! j) eqn:E; [done |].
    unfold Modal.is_open in *. cbn.
    rewrite lookup_insert_ne; [done | congruence].
  - destruct Hclosed. apply set_isOpen_open.
    destruct (decide (i = j)) as [->|]; [|done]. split; [by eexists | done].
  - destruct (decide (i = j)) as [->|Hne]; [by left |].
    destruct Hclosed. case_bool_decide; [|done].
    apply set_isOpen_open. by rewrite decide_False.
  - destruct (decide (i = j)) as [->|Hne]; [by right; left |].
    destruct Hclosed. case_bool_decide; [|done].
    apply set_isOpen_open. by rewrite decide_False.
  - done.
  - destruct (String.eqb_spec key "Escape") as [->|Hkey];
      [by right; right; left |].
    destruct Hclosed. by rewrite escape_ignored by (by left).
  - destruct (decide (i = j)) as [->|Hne]; [by right; right; right |].
    destruct Hclosed. unfold Modal.unmount.
    destruct (Modal.instances pg !! j); [|done].
    unfold Modal.is_open in *. cbn. by rewrite lookup_delete_ne.
Qed.

Lemma closes_only_by_witness :
  Modal.OverlayClick 0 = Modal.OverlayClick 0
  ∨ Modal.OverlayClick 0 = Modal.CloseClick 0
  ∨ Modal.OverlayClick 0 = Modal.KeyDown "Escape"
  ∨ Modal.OverlayClick 0 = Modal.Unmount 0.
Proof.
  apply (closes_only_by
           (Modal.run Modal.page_init [Modal.Mount 0 false; Modal.CardClick 0])
           (Modal.OverlayClick 0) 0%nat).
  - reflexivity.
  - discriminate.
Defined.

(** X15. Mounting a modal and unmounting it again leaves the instances and
    the listeners of a reachable page as they were, but not the scroll
    lock: it is released, also when another modal holds it. *)
Theorem mount_unmount (pg : Modal.page) (i : nat) (isOpen : bool) :
  page_reachable pg →
  Modal.instances pg !! i = None →
  Modal.instances (Modal.step (Modal.step pg (Modal.Mount i isOpen))
                     (Modal.Unmount i)) = Modal.instances pg
  ∧ Modal.keydown_listeners
      (Modal.step (Modal.step pg (Modal.Mount i isOpen)) (Modal.Unmount i))
    = Modal.keydown_listeners pg
  ∧ Modal.body_overflow
      (Modal.step (Modal.step pg (Modal.Mount i isOpen)) (Modal.Unmount i))
    = "".
Proof.
  intros [trace ->] Hnone.
  set (pg := Modal.run Modal.page_init trace) in *.
  assert (i ∉ Modal.keydown_listeners pg) as Hnl.
  { intros [? H]%(listeners_run trace _ listeners_init). fold pg in H.
    congruence. }
  cbn [Modal.step]. unfold Modal.mount. rewrite Hnone.
  unfold Modal.unmount. cbn. rewrite lookup_insert_eq. cbn.
  split_and!; [by apply delete_insert_id | | done].
  rewrite js_filter_app. cbn. rewrite Nat.eqb_refl. cbn.
  rewrite app_nil_r. apply filter_all.
  induction (Modal.keydown_listeners pg) as [|j l IH]; [done |].
  apply not_elem_of_cons in Hnl as [Hne Hnl]. cbn.
  rewrite (proj2 (Nat.eqb_neq j i)) by congruence. cbn. by apply IH.
Qed.

Lemma mount_unmount_witness :
  Modal.body_overflow
    (Modal.step
       (Modal.step
          (Modal.run Modal.page_init [Modal.Mount 0 false; Modal.CardClick 0])
          (Modal.Mount 1 false))
       (Modal.Unmount 1))
  = "".
Proof.
  apply (mount_unmount
           (Modal.run Modal.page_init [Modal.Mount 0 false; Modal.CardClick 0])
           1%nat false).
  - by eexists.
  - reflexivity.
Defined.

(** ** The list view: ties, sorted catalogs, repeated rendering, keys *)

Lemma at_time_cons host t x l :
  at_time host t (x :: l)
  = if bool_decide (JsDate.new host (time x) = Some t)
    then x :: at_time host t l else at_time host t l.
Proof. done. Qed.

Lemma at_time_sort_insert host t x l :
  parseable host x → Forall (parseable host) l →
  at_time host t (JsHeap.sort_insert (by_time host) x l)
  = at_time host t (x :: l).
Proof.
  intros Hx Hl. induction Hl as [|y l Hy Hl IH]; [done |].
  cbn [JsHeap.sort_insert].
  destruct (Z.leb_spec (JsHeap.SortCompare (by_time host) x y) 0) as [H|H];
    [done |].
  rewrite (at_time_cons host t y), IH, !at_time_cons.
  destruct Hx as [tx Ex], Hy as [ty Ey].
  unfold JsHeap.SortCompare, by_time, JsDate.getTime in H.
  rewrite Ex, Ey in H |- *. cbn in H.
  repeat case_bool_decide; simplify_eq; [lia | done..].
Qed.

Lemma at_time_sorted_order host t arr :
  Forall (parseable host) arr →
  at_time host t (JsHeap.sorted_order (by_time host) arr) = at_time host t arr.
Proof.
  induction 1 as [|x l Hx Hl IH]; [done |]. cbn [JsHeap.sorted_order].
  rewrite at_time_sort_insert; [| done | by rewrite sorted_order_perm].
  by rewrite !at_time_cons, IH.
Qed.

Lemma sorted_order_of_sorted host arr :
  StronglySorted (time_le host) arr →
  JsHeap.sorted_order (by_time host) arr = arr.
Proof.
  induction 1 as [|x l Hs IH Hx]; [done |]. cbn [JsHeap.sorted_order].
  rewrite IH. destruct Hx as [|y l Hxy _]; [done |].
  cbn [JsHeap.sort_insert].
  assert (JsHeap.SortCompare (by_time host) x y ≤ 0) as H.
  { unfold time_le in Hxy.
    unfold JsHeap.SortCompare, by_time, JsDate.getTime.
    destruct (JsDate.new host (time x)), (JsDate.new host (time y));
      try done. cbn. lia. }
  by rewrite (proj2 (Z.leb_le _ _) H).
Qed.

Lemma sortedEvents_result host st (h : heap) arr :
  held_events h st = Some arr →
  ∃ copy h',
    sortedEvents host st h = Some (copy, h')
    ∧ h' !! copy = Some (JsHeap.sorted_order (by_time host) arr)
    ∧ (∀ r, is_Some (h !! r) → h' !! r = h !! r).
Proof.
  intros Hst. eexists _, _. split_and!.
  - by apply sortedEvents_run.
  - apply lookup_insert_eq.
  - intros r [x Hr]. rewrite !lookup_insert_ne; [done | |];
      intros <-; pose proof (alloc_fresh h arr) as Hf; cbn in Hf; congruence.
Qed.

(** X16. The list view's sort is stable: when every time parses, events
    with the same time value are rendered in the order the catalog has
    them. *)
Theorem sortedEvents_stable (host : Host) (st : EventState) (h : heap)
    (arr : list Event) :
  held_events h st = Some arr →
  Forall (parseable host) arr →
  ∃ copy h' rendered,
    sortedEvents host st h = Some (copy, h')
    ∧ h' !! copy = Some rendered
    ∧ ∀ t, at_time host t rendered = at_time host t arr.
Proof.
  intros Hst Hall.
  destruct (sortedEvents_result host st h arr Hst) as (copy & h' & Hrun & Hc & _).
  exists copy, h', (JsHeap.sorted_order (by_time host) arr).
  split_and!; [done | done |]. intros t. by apply at_time_sorted_order.
Qed.

Lemma sortedEvents_stable_witness :
  ∃ copy h' rendered,
    sortedEvents UtcHost.host (mkEventState 0)
      (<[0%nat := [mockEvent3; mockEvent1_moved;
                   mkEvent "Twin" (JsString "2025-06-30T18:00:00") "" "" "" None]]>
         ∅) = Some (copy, h')
    ∧ h' !! copy = Some rendered
    ∧ at_time UtcHost.host 1751306400000 rendered
      = [mockEvent3;
         mkEvent "Twin" (JsString "2025-06-30T18:00:00") "" "" "" None].
Proof.
  destruct (sortedEvents_stable UtcHost.host (mkEventState 0)
              (<[0%nat := [mockEvent3; mockEvent1_moved;
                   mkEvent "Twin" (JsString "2025-06-30T18:00:00") "" "" "" None]]>
                 ∅)
              [mockEvent3; mockEvent1_moved;
               mkEvent "Twin" (JsString "2025-06-30T18:00:00") "" "" "" None])
    as (copy & h' & rendered & Hrun & Hc & Hties).
  - reflexivity.
  - repeat constructor; eexists; reflexivity.
  - exists copy, h', rendered. split_and!; [done | done |].
    rewrite Hties. reflexivity.
Defined.

(** X17. A catalog that is already in ascending order of time is rendered
    in exactly its own order. *)
Theorem sortedEvents_of_sorted (host : Host) (st : EventState) (h : heap)
    (arr : list Event) :
  held_events h st = Some arr →
  StronglySorted (time_le host) arr →
  ∃ copy h', sortedEvents host st h = Some (copy, h') ∧ h' !! copy = Some arr.
Proof.
  intros Hst Hsorted.
  destruct (sortedEvents_result host st h arr Hst) as (copy & h' & Hrun & Hc & _).
  exists copy, h'. split; [done |].
  by rewrite Hc, (sorted_order_of_sorted host arr Hsorted).
Qed.

Lemma sortedEvents_of_sorted_witness :
  ∃ copy h',
    sortedEvents UtcHost.host (mkEventState 0)
      (<[0%nat := [mockEvent1; mockEvent2; mockEvent3]]> ∅) = Some (copy, h')
    ∧ h' !! copy = Some [mockEvent1; mockEvent2; mockEvent3].
Proof.
  apply (sortedEvents_of_sorted UtcHost.host (mkEventState 0)
           (<[0%nat := [mockEvent1; mockEvent2; mockEvent3]]> ∅)).
  - reflexivity.
  - repeat constructor; vm_compute; discriminate.
Defined.

Lemma EventList_render_result host st (h : heap) arr :
  held_events h st = Some arr →
  ∃ h', EventList_render host st h
        = Some (EventList_template (JsHeap.sorted_order (by_time host) arr), h')
        ∧ (∀ r, is_Some (h !! r) → h' !! r = h !! r).
Proof.
  intros Hst.
  destruct (sortedEvents_result host st h arr Hst) as (copy & h' & Hrun & Hc & Hk).
  exists h'. split; [|done].
  unfold EventList_render. rewrite Hrun. cbn. by rewrite Hc.
Qed.

(** X18. Loading and rendering can be repeated: after [fetchEvents] the
    list view shows one card per event of the dataset, the imported
    dataset array itself is left as it was, and fetching and rendering
    once more gives the same view. *)
Theorem fetch_render_repeatable (host : Host) (eventsData : nat)
    (st : EventState) (h : heap) (arr : list Event) :
  h !! eventsData = Some arr →
  ∃ view h',
    EventList_render host (fetchEvents eventsData st) h = Some (view, h')
    ∧ length (cards_of view) = length arr
    ∧ h' !! eventsData = Some arr
    ∧ ∃ h'', EventList_render host
               (fetchEvents eventsData (fetchEvents eventsData st)) h'
             = Some (view, h'').
Proof.
  intros Hdata.
  destruct (EventList_render_result host (fetchEvents eventsData st) h arr Hdata)
    as (h' & Hrender & Hkeep).
  assert (h' !! eventsData = Some arr) as Hdata'
    by (rewrite Hkeep; [done | by eexists]).
  destruct (EventList_render_result host
              (fetchEvents eventsData (fetchEvents eventsData st)) h' arr Hdata')
    as (h'' & Hrender' & _).
  eexists _, h'. split_and!; [exact Hrender | | exact Hdata' | by exists h''].
  rewrite cards_of_template, length_map.
  apply Permutation_length, sorted_order_perm.
Qed.

Lemma fetch_render_repeatable_witness :
  ∃ view h',
    EventList_render UtcHost.host (fetchEvents 7 (mkEventState 0))
      (<[7%nat := [mockEvent2; mockEvent1]]> (<[0%nat := []]> ∅))
    = Some (view, h')
    ∧ length (cards_of view) = 2%nat
    ∧ h' !! 7%nat = Some [mockEvent2; mockEvent1].
Proof.
  destruct (fetch_render_repeatable UtcHost.host 7 (mkEventState 0)
              (<[7%nat := [mockEvent2; mockEvent1]]> (<[0%nat := []]> ∅))
              [mockEvent2; mockEvent1])
    as (view & h' & Hrender & Hlen & Hdata & _).
  - reflexivity.
  - by exists view, h'.
Defined.

Lemma card_keys_template sorted :
  card_keys (EventList_template sorted) = map name sorted.
Proof.
  unfold card_keys, EventList_template. cbn.
  induction sorted as [|e l IH]; [done |]. cbn. by rewrite IH.
Qed.

(** X19. The cards of the list view are keyed by event name: the keys are
    the catalog's names in rendered order, and they are pairwise distinct
    whenever the names of the catalog are. *)
Theorem EventList_keys (host : Host) (st : EventState) (h : heap)
    (arr : list Event) :
  held_events h st = Some arr →
  ∃ view h',
    EventList_render host st h = Some (view, h')
    ∧ card_keys view ≡ₚ map name arr
    ∧ (NoDup (map name arr) → NoDup (card_keys view)).
Proof.
  intros Hst.
  destruct (EventList_render_result host st h arr Hst) as (h' & Hrender & _).
  eexists _, h'. split; [exact Hrender |].
  rewrite card_keys_template.
  assert (map name (JsHeap.sorted_order (by_time host) arr) ≡ₚ map name arr)
    as Hperm by (apply fmap_Permutation, sorted_order_perm).
  split; [done |]. intros Hnd. by rewrite Hperm.
Qed.

Lemma EventList_keys_witness :
  ∃ view h',
    EventList_render UtcHost.host (mkEventState 0)
      (<[0%nat := [mockEvent3; mockEvent1]]> ∅) = Some (view, h')
    ∧ NoDup (card_keys view).
Proof.
  destruct (EventList_keys UtcHost.host (mkEventState 0)
              (<[0%nat := [mockEvent3; mockEvent1]]> ∅)
              [mockEvent3; mockEvent1])
    as (view & h' & Hrender & _ & Hnd).
  - reflexivity.
  - exists view, h'. split; [done |]. apply Hnd.
    apply NoDup_cons. split; [|apply NoDup_singleton].
    intros H%list_elem_of_singleton. discriminate H.
Defined.

(** ** The formatter and the views that call it *)

Lemma ascii_toUpperCase_not_lower c : is_lower (ascii_toUpperCase c) = false.
Proof. destruct c as [[] [] [] [] [] [] [] []]; reflexivity. Qed.

Lemma toUpperCase_not_lower s :
  Forall (λ c, is_lower c = false) (String.list_ascii_of_string (toUpperCase s)).
Proof.
  induction s as [|c s IH]; cbn; [constructor |].
  constructor; [apply ascii_toUpperCase_not_lower | exact IH].
Qed.

Lemma toUpperCase_length s : String.length (toUpperCase s) = String.length s.
Proof. induction s as [|c s IH]; cbn; [done | by rewrite IH]. Qed.

(** X20. The month [formatCalendarDate] returns has no lower-case letter
    and is as long as the month text of the host, for every input. *)
Theorem formatCalendarDate_month_upper (host : Host) (dateString : jsval) :
  ∃ c, formatCalendarDate host dateString = Return c
       ∧ Forall (λ ch, is_lower ch = false)
           (String.list_ascii_of_string (month c))
       ∧ String.length (month c)
         = String.length
             (JsDate.toLocaleString_month host (JsDate.new host dateString)).
Proof.
  eexists. split; [reflexivity |]. cbn [month].
  split; [apply toUpperCase_not_lower | apply toUpperCase_length].
Qed.

(** X21. For a date that is not valid the calendar icon still renders: it
    shows [INVALID DATE] as the month and [NaN] as the day. *)
Theorem EventCalendarIcon_invalid_date (host : Host) (date : jsval) :
  JsDate.new host date = None →
  formatCalendarDate host date = Return (mkCalendarDate "INVALID DATE" "NaN")
  ∧ EventCalendarIcon_template host date
    = Return
        (TElement "div" [("class", "event-calendar")]
           [TElement "span" [("class", "calendar-banner")] [];
            TElement "div" [("class", "calendar-time")]
              [TElement "span" [("class", "calendar-month")]
                 [TText "INVALID DATE"];
               TElement "span" [("class", "calendar-date")] [TText "NaN"]]]).
Proof.
  intros Hinvalid.
  assert (formatCalendarDate host date
          = Return (mkCalendarDate "INVALID DATE" "NaN")) as Hcal.
  { unfold formatCalendarDate. by rewrite Hinvalid. }
  split; [exact Hcal |]. unfold EventCalendarIcon_template. by rewrite Hcal.
Qed.

Lemma EventCalendarIcon_invalid_date_witness :
  formatCalendarDate UtcHost.host (JsString "2025-13-45T10:00:00")
  = Return (mkCalendarDate "INVALID DATE" "NaN").
Proof.
  apply (EventCalendarIcon_invalid_date UtcHost.host
           (JsString "2025-13-45T10:00:00")).
  reflexivity.
Defined.

(** X22. An event card renders exactly when the event's time is a valid
    date; otherwise evaluating its template ends in the [RangeError] of
    [formatDate], for an open and for a closed modal alike. *)
Theorem EventCard_renders_iff_valid (host : Host) (event : Event)
    (isModalOpen : bool) :
  ((∃ nodes, EventCard_template host event isModalOpen = Return nodes)
   ↔ parseable host event)
  ∧ (¬ parseable host event →
     EventCard_template host event isModalOpen = Throw RangeError).
Proof.
  unfold EventCard_template, formatDate, parseable.
  destruct (JsDate.new host (time event)) as [t|]; cbn.
  - split; [split; [by eexists | by eexists] |]. intros H. destruct H.
    by eexists.
  - split; [|done]. split; [by intros [? ?] | by intros [? ?]].
Qed.

Lemma EventCard_renders_iff_valid_witness :
  EventCard_template UtcHost.host
    (mkEvent "Invalid Event" (JsString "invalid-date") "Location" "" "" None)
    false
  = Throw RangeError.
Proof.
  apply (EventCard_renders_iff_valid UtcHost.host
           (mkEvent "Invalid Event" (JsString "invalid-date") "Location" "" ""
              None) false).
  intros [t Ht]. discriminate Ht.
Defined.

(** ** The list view renders a sorted copy *)

Lemma card_events_template sorted :
  card_events (EventList_template sorted) = sorted.
Proof.
  unfold card_events, EventList_template. cbn.
  induction sorted as [|e l IH]; [done |]. cbn. by rewrite IH.
Qed.

(** C3, amended.  For every catalog state the list view renders the cards
    of a re-sorted copy: the view is the template over a permutation of
    the catalog, one card per event in that order; the array the store
    refers to holds the same sequence afterwards, element for element, and
    no array that existed changes.  When the time of every event of the
    catalog parses, the rendered order is ascending by time. *)
Theorem EventList_render_sorted_copy (host : Host) (st : EventState)
    (h : heap) (arr : list Event) :
  held_events h st = Some arr →
  ∃ rendered h',
    EventList_render host st h = Some (EventList_template rendered, h')
    ∧ card_events (EventList_template rendered) = rendered
    ∧ cards_of (EventList_template rendered)
      = map (λ event, VEventCard (name event) event) rendered
    ∧ held_events h' st = Some arr
    ∧ (∀ r, is_Some (h !! r) → h' !! r = h !! r)
    ∧ rendered ≡ₚ arr
    ∧ (Forall (parseable host) arr → StronglySorted (time_le host) rendered).
Proof.
  intros Hst.
  destruct (EventList_render_result host st h arr Hst) as (h' & Hrender & Hkeep).
  exists (JsHeap.sorted_order (by_time host) arr), h'. split_and!.
  - exact Hrender.
  - apply card_events_template.
  - apply cards_of_template.
  - unfold held_events in *. rewrite Hkeep; [done | by eexists].
  - exact Hkeep.
  - apply sorted_order_perm.
  - apply sorted_order_sorted.
Qed.

Lemma EventList_render_sorted_copy_witness :
  ∃ rendered h',
    EventList_render UtcHost.host (mkEventState 0)
      (<[0%nat := [mockEvent3; mockEvent1; mockEvent2]]> ∅)
    = Some (EventList_template rendered, h')
    ∧ held_events h' (mkEventState 0)
      = Some [mockEvent3; mockEvent1; mockEvent2]
    ∧ StronglySorted (time_le UtcHost.host) rendered.
Proof.
  destruct (EventList_render_sorted_copy UtcHost.host (mkEventState 0)
              (<[0%nat := [mockEvent3; mockEvent1; mockEvent2]]> ∅)
              [mockEvent3; mockEvent1; mockEvent2])
    as (rendered & h' & Hrender & _ & _ & Hstore & _ & _ & Hsorted).
  - reflexivity.
  - exists rendered, h'. split_and!; [done | done |].
    apply Hsorted. repeat constructor; eexists; reflexivity.
Defined.

(** C3 as stated fails.  In the catalog below the times of the first and
    the last event parse, the last one is the earlier, and an event whose
    time does not parse stands between them; every comparison with that
    event gives [NaN], the array counts as in order and is rendered as it
    is, the later event before the earlier one. *)
Lemma EventList_mixed_catalog_not_ascending :
  ¬ (∀ host st (h : heap) arr,
       held_events h st = Some arr →
       ∃ view h',
         EventList_render host st h = Some (view, h')
         ∧ held_events h' st = Some arr
         ∧ StronglySorted (time_le host)
             (with_parseable_time host (card_events view))).
Proof.
  intros H.
  assert (held_events (<[0%nat := [mockEvent2; invalidEvent; mockEvent1]]> ∅)
            (mkEventState 0)
          = Some [mockEvent2; invalidEvent; mockEvent1]) as Hst by reflexivity.
  destruct (H UtcHost.host _ _ _ Hst) as (view & h' & Hrender & _ & Hsorted).
  destruct (EventList_render_result UtcHost.host _ _ _ Hst)
    as (h'' & Hrender' & _).
  rewrite Hrender' in Hrender. injection Hrender as <- _.
  rewrite card_events_template in Hsorted.
  change (StronglySorted (time_le UtcHost.host) [mockEvent2; mockEvent1])
    in Hsorted.
  apply StronglySorted_inv in Hsorted as [_ Hfirst].
  apply Forall_cons in Hfirst as [Hle _].
  vm_compute in Hle. by apply Hle.
Qed.

(** The rendering of that catalog. *)
Example EventList_mixed_catalog_order :
  ∃ h', EventList_render UtcHost.host (mkEventState 0)
          (<[0%nat := [mockEvent2; invalidEvent; mockEvent1]]> ∅)
        = Some (EventList_template [mockEvent2; invalidEvent; mockEvent1], h').
Proof. eexists. vm_compute. reflexivity. Qed.

(** ** The scroll lock under an open modal *)

Section lock_held.
Import Modal.

Lemma set_isOpen_true_locked j pg :
  locked pg → locked (set_isOpen j true pg).
Proof.
  intros Hl. unfold set_isOpen. destruct (instances pg !! j) as [old|]; [|done].
  by destruct (bool_decide_reflect (old = true)).
Qed.

Lemma close_click_released j pg :
  is_open j pg →
  body_overflow (closeModal j pg) = ""
  ∧ ∀ i, i ≠ j → (is_open i (closeModal j pg) ↔ is_open i pg).
Proof.
  intros Hj. split; [by apply closeModal_open |].
  intros i Hi. unfold closeModal. rewrite set_isOpen_open.
  by rewrite decide_False.
Qed.

Lemma held_step i pg ev :
  listeners_mounted pg → is_open i pg → locked pg →
  releases_under i pg ev = false → is_open i (step pg ev) →
  locked (step pg ev).
Proof.
  intros Hm Hi Hl Hrel Hafter.
  assert (∀ j, (if bool_decide (instances pg !! j = Some true)
                then closeModal j pg else pg) = step pg (CloseClick j))
    as Hclose by done.
  assert (∀ j, negb (j =? i)%nat && bool_decide (is_open j pg) = false →
               is_open i (step pg (CloseClick j)) →
               locked (step pg (CloseClick j))) as Hclick.
  { intros j Hr Ha. cbn [step] in *.
    destruct (decide (j = i)) as [->|Hne].
    - rewrite (bool_decide_eq_true_2 _ Hi) in Ha. unfold closeModal in Ha.
      apply set_isOpen_open in Ha. rewrite decide_True in Ha by done.
      by destruct Ha.
    - rewrite (proj2 (Nat.eqb_neq j i) Hne) in Hr. cbn [negb andb] in Hr.
      apply bool_decide_eq_false in Hr.
      by rewrite (bool_decide_eq_false_2 (instances pg !! j = Some true) Hr). }
  destruct ev as [j b|j|j|j|j|key|j]; cbn [releases_under] in Hrel.
  - cbn [step]. unfold mount. by destruct (instances pg !! j).
  - by apply set_isOpen_true_locked.
  - by apply Hclick.
  - by apply Hclick.
  - done.
  - destruct (String.eqb_spec key "Escape") as [->|Hkey].
    + cbn [step] in Hafter. apply escape_open_iff in Hafter as [_ Hnot].
      destruct Hnot. split; [done |]. apply Hm. by eexists.
    + cbn [step]. by rewrite escape_ignored by (by left).
  - cbn [step] in *. unfold unmount in *.
    destruct (instances pg !! j) eqn:E; [|done].
    destruct (decide (j = i)) as [->|Hne].
    + unfold is_open in Hafter. cbn in Hafter.
      by rewrite lookup_delete_eq in Hafter.
    + rewrite (proj2 (Nat.eqb_neq j i) Hne) in Hrel. cbn [negb andb] in Hrel.
      apply bool_decide_eq_false in Hrel. destruct Hrel. by eexists.
Qed.

Lemma held_run i trace pg :
  listeners_mounted pg → is_open i pg → locked pg →
  held_through i pg trace → locked (run pg trace).
Proof.
  revert pg. induction trace as [|ev trace IH]; intros pg Hm Hi Hl Hheld;
    [done |].
  destruct Hheld as (Hrel & Hafter & Hrest). cbn. apply IH.
  - by apply listeners_step.
  - done.
  - by apply (held_step i).
  - done.
Qed.

Lemma release_under_open i pg ev :
  is_open i pg → releases_under i pg ev = true →
  is_open i (step pg ev) ∧ body_overflow (step pg ev) = "".
Proof.
  intros Hi Hrel.
  assert (∀ j, negb (j =? i)%nat && bool_decide (is_open j pg) = true →
               is_open i (step pg (CloseClick j))
               ∧ body_overflow (step pg (CloseClick j)) = "") as Hclick.
  { intros j [Hne Hj]%andb_true_iff.
    apply negb_true_iff, Nat.eqb_neq in Hne. apply bool_decide_eq_true in Hj.
    cbn [step]. rewrite (bool_decide_eq_true_2 _ Hj).
    destruct (close_click_released j pg Hj) as [Hov Hsame].
    split; [|done]. apply Hsame; [congruence | done]. }
  destruct ev as [j b|j|j|j|j|key|j]; cbn [releases_under] in Hrel;
    try discriminate.
  - by apply Hclick.
  - by apply Hclick.
  - apply andb_true_iff in Hrel as [Hne Hj].
    apply negb_true_iff, Nat.eqb_neq in Hne.
    apply bool_decide_eq_true in Hj as [b Hj].
    cbn [step]. unfold unmount. rewrite Hj. split; [|done].
    unfold is_open in *. cbn. by rewrite lookup_delete_ne.
Qed.
End lock_held.

(** C4, amended.  Every modal instance writes the one scroll lock by
    itself.  The card's click on a closed instance sets it; mounting an
    instance, closed or open, leaves it as it is.  A backdrop click, a
    click on the close button and (in a reachable state) the Escape key on
    an open instance release it, and so does the teardown of any mounted
    instance, open or not.  In every reachable state a lock that is on has
    an open instance.  From a reachable state in which an instance is open
    and the lock is on, as right after the instance's card was clicked,
    the lock stays on for as long as the instance stays open and no click
    closes another open instance and no other mounted instance is torn
    down; each of those steps does release the lock under the instance
    that is still open. *)
Theorem scroll_lock_held_while_open :
  (∀ pg i, Modal.instances pg !! i = Some false →
     Modal.locked (Modal.step pg (Modal.CardClick i)))
  ∧ (∀ pg i isOpen,
       Modal.body_overflow (Modal.step pg (Modal.Mount i isOpen))
       = Modal.body_overflow pg)
  ∧ (∀ pg i, Modal.is_open i pg →
       Modal.body_overflow (Modal.step pg (Modal.OverlayClick i)) = ""
       ∧ Modal.body_overflow (Modal.step pg (Modal.CloseClick i)) = "")
  ∧ (∀ pg i, page_reachable pg → Modal.is_open i pg →
       Modal.body_overflow (Modal.step pg (Modal.KeyDown "Escape")) = "")
  ∧ (∀ pg i, is_Some (Modal.instances pg !! i) →
       Modal.body_overflow (Modal.step pg (Modal.Unmount i)) = "")
  ∧ (∀ pg, page_reachable pg → Modal.locked pg → ∃ i, Modal.is_open i pg)
  ∧ (∀ pg i trace,
       page_reachable pg →
       Modal.is_open i pg → Modal.locked pg →
       Modal.held_through i pg trace →
       Modal.is_open i (Modal.run pg trace)
       ∧ Modal.locked (Modal.run pg trace))
  ∧ (∀ pg i ev,
       Modal.is_open i pg → Modal.releases_under i pg ev = true →
       Modal.is_open i (Modal.step pg ev)
       ∧ Modal.body_overflow (Modal.step pg ev) = "").
Proof.
  split_and!.
  - intros pg i H. by apply (set_isOpen_changes i true).
  - intros pg i b. cbn. unfold Modal.mount.
    by destruct (Modal.instances pg !! i).
  - intros pg i H. simpl. rewrite (bool_decide_eq_true_2 _ H).
    split; by apply closeModal_open.
  - intros pg i [trace ->] H. simpl. apply (escape_releases i); [done |].
    apply (listeners_run trace _ listeners_init). by eexists.
  - intros pg i [b H]. simpl. unfold Modal.unmount. by rewrite H.
  - intros pg [trace ->]. apply lock_has_holder_run. intros Hl. discriminate Hl.
  - intros pg i trace [before ->] Hopen Hlocked Hheld. split.
    + revert Hopen Hheld. generalize (Modal.run Modal.page_init before).
      induction trace as [|ev trace IH]; intros pg Hopen Hheld; [done |].
      destruct Hheld as (_ & Hafter & Hrest). cbn. by apply IH.
    + apply (held_run i); [| done | done | done].
      apply (listeners_run before _ listeners_init).
  - intros pg i ev. apply release_under_open.
Qed.

Lemma scroll_lock_held_while_open_witness :
  Modal.locked
    (Modal.step (Modal.run Modal.page_init [Modal.Mount 0 false])
       (Modal.CardClick 0))
  ∧ Modal.body_overflow
      (Modal.step
         (Modal.run Modal.page_init [Modal.Mount 0 false; Modal.CardClick 0])
         (Modal.OverlayClick 0)) = ""
  ∧ Modal.body_overflow
      (Modal.step
         (Modal.run Modal.page_init [Modal.Mount 0 false; Modal.CardClick 0])
         (Modal.KeyDown "Escape")) = ""
  ∧ Modal.body_overflow
      (Modal.step
         (Modal.run Modal.page_init [Modal.Mount 0 false; Modal.CardClick 0])
         (Modal.Unmount 0)) = ""
  ∧ (∃ i, Modal.is_open i
            (Modal.run Modal.page_init [Modal.Mount 0 false; Modal.CardClick 0]))
  ∧ Modal.locked
      (Modal.run
         (Modal.run Modal.page_init
            [Modal.Mount 0 false; Modal.Mount 1 true; Modal.CardClick 0])
         [Modal.Mount 2 false; Modal.CardClick 2; Modal.ContentClick 0;
          Modal.KeyDown "Enter"; Modal.OverlayClick 3])
  ∧ Modal.body_overflow
      (Modal.step
         (Modal.run Modal.page_init
            [Modal.Mount 0 false; Modal.Mount 1 false; Modal.CardClick 0])
         (Modal.Unmount 1)) = "".
Proof.
  destruct scroll_lock_held_while_open
    as (Hopen & _ & Hclose & Hesc & Hdown & Hholder & Hheld & Hrel).
  split_and!.
  - apply Hopen. reflexivity.
  - apply (Hclose _ 0%nat). reflexivity.
  - apply (Hesc _ 0%nat); [by eexists | reflexivity].
  - apply (Hdown _ 0%nat). eexists. reflexivity.
  - apply Hholder; [by eexists | reflexivity].
  - apply (Hheld
             (Modal.run Modal.page_init
                [Modal.Mount 0 false; Modal.Mount 1 true; Modal.CardClick 0])
             0%nat); [by eexists | reflexivity | reflexivity |].
    cbn [Modal.held_through]. split_and!; reflexivity || exact I.
  - apply (Hrel _ 0%nat); reflexivity.
Defined.
